(** * scores-directory: the .gen document parser and the score catalogue

    A shallow embedding of [src/services/gen-parser.ts] and
    [src/services/score-loader.ts], followed by the properties of the
    parser (marker scan, key normalisation, degradation on undecodable
    metadata) and of the catalogue queries (record construction, filtering,
    category and composer listings). *)

From Stdlib Require Import ZArith NArith List String Ascii DecimalString Lia.
From Stdlib Require Import Sorting.Sorted DecimalNat.
From stdpp Require Import gmap list.

Local Open Scope Z_scope.

(** ** JavaScript strings

    A JavaScript string is a finite sequence of UTF-16 code units.  A code
    unit is an [N]; the functions below never produce a value outside the
    16-bit range from code units inside it. *)

Abbreviation jsstring := (list N).

Module JS.

(** Literals are written as Rocq strings and read as code units. *)
Definition lit (s : string) : jsstring :=
  List.map N_of_ascii (list_ascii_of_string s).

(** ECMAScript WhiteSpace and LineTerminator code units, the characters
    [String.prototype.trim] strips. *)
Definition isWhiteSpace (c : N) : bool :=
  ((9 <=? c) && (c <=? 13))%N
  || (c =? 32)%N || (c =? 160)%N || (c =? 5760)%N
  || ((8192 <=? c) && (c <=? 8202))%N
  || (c =? 8232)%N || (c =? 8233)%N || (c =? 8239)%N
  || (c =? 8287)%N || (c =? 12288)%N || (c =? 65279)%N.

Fixpoint trimStart (s : jsstring) : jsstring :=
  match s with
  | c :: t => if isWhiteSpace c then trimStart t else s
  | [] => []
  end.

Definition trimEnd (s : jsstring) : jsstring := rev (trimStart (rev s)).

Definition trim (s : jsstring) : jsstring := trimEnd (trimStart s).

(** [s.split(sep)] for a separator of one code unit: never empty, the
    empty string splits into one empty piece. *)
Fixpoint split (sep : N) (s : jsstring) : list jsstring :=
  match s with
  | [] => [[]]
  | c :: t =>
      if (c =? sep)%N then [] :: split sep t
      else match split sep t with
           | piece :: rest => (c :: piece) :: rest
           | [] => [[c]]
           end
  end.

(** [parts.join(sep)]. *)
Fixpoint join (sep : jsstring) (parts : list jsstring) : jsstring :=
  match parts with
  | [] => []
  | [p] => p
  | p :: rest => p ++ sep ++ join sep rest
  end.

(** [xs.slice(from, to)] with the relative-index rule for negative
    arguments. *)
Definition relIndex (len i : Z) : Z :=
  if i <? 0 then Z.max (len + i) 0 else Z.min i len.

Definition slice {A} (xs : list A) (from to : Z) : list A :=
  let len := Z.of_nat (length xs) in
  let k := relIndex len from in
  let final := relIndex len to in
  firstn (Z.to_nat (final - k)) (skipn (Z.to_nat k) xs).

Fixpoint startsWith (s pre : jsstring) {struct pre} : bool :=
  match pre, s with
  | [], _ => true
  | p :: pre', c :: s' => (c =? p)%N && startsWith s' pre'
  | _ :: _, [] => false
  end.

Definition endsWith (s suf : jsstring) : bool := startsWith (rev s) (rev suf).

(** [s.includes(sub)]: [sub] occurs at some position of [s]. *)
Fixpoint includes (s sub : jsstring) : bool :=
  startsWith s sub ||
  match s with
  | [] => false
  | _ :: t => includes t sub
  end.

(** Truthiness of a string: every string but the empty one. *)
Definition truthy (s : jsstring) : bool :=
  match s with [] => false | _ :: _ => true end.

(** Truthiness of an optional string property; [undefined] and [null]
    are both [None]. *)
Definition truthy_opt (o : option jsstring) : bool :=
  match o with Some s => truthy s | None => false end.

(** The relational [<] on strings compares code units position by
    position; [Array.prototype.sort] without a comparator orders strings
    the same way. *)
Fixpoint ltb (a b : jsstring) : bool :=
  match a, b with
  | _, [] => false
  | [], _ :: _ => true
  | x :: a', y :: b' => (x <? y)%N || ((x =? y)%N && ltb a' b')
  end.

Fixpoint insert_sorted (x : jsstring) (l : list jsstring) : list jsstring :=
  match l with
  | [] => [x]
  | y :: l' => if ltb y x then y :: insert_sorted x l' else x :: l
  end.

(** The result of [xs.sort()] on strings.  The engine's algorithm is not
    observable on strings (equal elements are indistinguishable), so the
    result is the ordered rearrangement, computed here by insertion. *)
Definition sort (l : list jsstring) : list jsstring :=
  fold_right insert_sorted [] l.

(** A [Set] of strings: elements in insertion order, without repeats. *)
Definition set_add (x : jsstring) (s : list jsstring) : list jsstring :=
  if bool_decide (x ∈ s) then s else s ++ [x].

(** How a statement ends: normally with a value, or by throwing. *)
Inductive Completion (A : Type) : Type :=
| Normal (a : A)
| Throw.
Arguments Normal {A} a.
Arguments Throw {A}.

Definition bind {A B} (c : Completion A) (k : A -> Completion B) : Completion B :=
  match c with
  | Normal a => k a
  | Throw => Throw
  end.

(** [try { body } catch { handler }]. *)
Definition try_catch {A} (body handler : Completion A) : Completion A :=
  match body with
  | Normal a => Normal a
  | Throw => handler
  end.

#[global] Instance Completion_ret : MRet Completion := @Normal.
#[global] Instance Completion_bind : MBind Completion :=
  fun A B k c => bind c k.

(** [for (const x of items) { state = body(state, x) }]: the turns run in
    order and the loop is left at the first throw. *)
Fixpoint forOf {S A} (body : S -> A -> Completion S) (items : list A)
    (state : S) : Completion S :=
  match items with
  | [] => Normal state
  | item :: items' =>
      match body state item with
      | Normal state' => forOf body items' state'
      | Throw => Throw
      end
  end.

(** [obj[key] = text] for a string [text] on an object created by [{}].
    An own property is written, with one exception: the key [__proto__]
    is no own property but reaches the accessor inherited from
    [Object.prototype], whose setter ignores a value that is neither an
    object nor [null]; the object is left as it was. *)
Definition setProperty (obj : gmap jsstring jsstring) (key text : jsstring)
  : gmap jsstring jsstring :=
  if bool_decide (key = lit "__proto__") then obj else <[key := text]> obj.

(** Decimal numeral of an array index, as [Object.entries] spells it. *)
Definition indexKey (i : nat) : jsstring :=
  lit (NilEmpty.string_of_uint (Nat.to_uint i)).

(** *** Values handed over by the structured-text decoder

    [YAML.parse] yields JSON-like values: null, booleans, numbers, strings,
    sequences and mappings.  Numbers are IEEE doubles in the program; the
    parser only prints them and tests them for truthiness, so both
    operations are taken from the number type. *)
Class NumberOps (Number : Type) := {
  Number_toString : Number -> jsstring;
  Number_truthy : Number -> bool
}.

#[warnings="-register-all"]
Inductive JSValue (Number : Type) : Type :=
| JNull
| JBool (b : bool)
| JNum (n : Number)
| JStr (s : jsstring)
| JArr (items : list (JSValue Number))
| JObj (props : list (jsstring * JSValue Number)).
Arguments JNull {Number}.
Arguments JBool {Number} b.
Arguments JNum {Number} n.
Arguments JStr {Number} s.
Arguments JArr {Number} items.
Arguments JObj {Number} props.

Section Values.
Context {Number : Type} `{NumberOps Number}.

(** [String(value)].  A primitive is printed.  A sequence goes through
    [Array.prototype.join]: [null] items give the empty string, the
    others are converted in order.  A mapping is a plain object, converted
    by its [toString] and [valueOf]: the inherited [toString] answers
    [[object Object]]; an own [toString] property holds a decoded value,
    never a function, so it is passed over, [valueOf] (own and passed over
    alike, or inherited and returning the object) gives no primitive, and
    the conversion throws a [TypeError]. *)
Fixpoint ToString (v : JSValue Number) : Completion jsstring :=
  match v with
  | JNull => Normal (lit "null")
  | JBool b => Normal (if b then lit "true" else lit "false")
  | JNum n => Normal (Number_toString n)
  | JStr s => Normal s
  | JArr items =>
      match
        (fix each (l : list (JSValue Number)) : Completion (list jsstring) :=
           match l with
           | [] => Normal []
           | item :: l' =>
               match (match item with
                      | JNull => Normal []
                      | _ => ToString item
                      end) with
               | Normal part =>
                   match each l' with
                   | Normal parts => Normal (part :: parts)
                   | Throw => Throw
                   end
               | Throw => Throw
               end
           end) items
      with
      | Normal parts => Normal (join (lit ",") parts)
      | Throw => Throw
      end
  | JObj props =>
      if existsb (fun p => bool_decide (p.1 = lit "toString")) props
      then Throw
      else Normal (lit "[object Object]")
  end.

(** Truthiness of a value. *)
Definition ToBoolean (v : JSValue Number) : bool :=
  match v with
  | JNull => false
  | JBool b => b
  | JNum n => Number_truthy n
  | JStr s => truthy s
  | JArr _ | JObj _ => true
  end.

(** [typeof v === "object"]. *)
Definition typeof_object (v : JSValue Number) : bool :=
  match v with
  | JNull | JArr _ | JObj _ => true
  | JBool _ | JNum _ | JStr _ => false
  end.

(** [Object.entries(v)]: the own enumerable properties in enumeration
    order; a sequence lists its indices, a string its code units, and
    [null] has no properties to list and throws. *)
Definition Object_entries (v : JSValue Number)
  : Completion (list (jsstring * JSValue Number)) :=
  match v with
  | JNull => Throw
  | JBool _ | JNum _ => Normal []
  | JStr s => Normal (imap (fun i c => (indexKey i, JStr [c])) s)
  | JArr items => Normal (imap (fun i item => (indexKey i, item)) items)
  | JObj props => Normal props
  end.

End Values.

End JS.


Import JS.

(** ** The document parser, [src/services/gen-parser.ts] *)

Module GenParser.

Abbreviation ScoreMetadata := (gmap jsstring jsstring).

Record ParsedGenFile := {
  notation : jsstring;
  metadata : gmap jsstring jsstring
}.

Definition newline : N := 10.
Definition hyphen : N := 45.

(** The character class [[a-z]]. *)
Definition isLowerAZ (c : N) : bool := ((97 <=? c) && (c <=? 122))%N.

(** [letter.toUpperCase()] for a letter of [[a-z]]. *)
Definition letterToUpperCase (c : N) : N := (c - 32)%N.

(** [key.replace(/-([a-z])/g, (_, letter) => letter.toUpperCase())]: one
    pass from the left; a match consumes both of its code units and the
    search resumes after it. *)
Fixpoint camelKey (key : jsstring) : jsstring :=
  match key with
  | [] => []
  | c :: rest =>
      match rest with
      | letter :: rest' =>
          if (c =? hyphen)%N && isLowerAZ letter
          then letterToUpperCase letter :: camelKey rest'
          else c :: camelKey rest
      | [] => [c]
      end
  end.

Section Parser.
Context {Number : Type} `{NumberOps Number}.

(** The decoder of the metadata block, [YAML.parse]: it returns a value or
    throws. *)
Variable YAML_parse : jsstring -> Completion (JSValue Number).

(** One turn of the loop of [normalizeMetadataKeys]: the key is rewritten,
    [String(value)] is evaluated and may throw, then the assignment is
    made on [result], an object created by [{}]. *)
Definition assignEntry (result : gmap jsstring jsstring)
    (entry : jsstring * JSValue Number) : Completion (gmap jsstring jsstring) :=
  let camelKey := camelKey entry.1 in
  text ← ToString entry.2;
  mret (setProperty result camelKey text).

Definition normalizeMetadataKeys (obj : JSValue Number)
  : Completion (gmap jsstring jsstring) :=
  entries ← Object_entries obj;
  forOf assignEntry entries ∅.

Definition isMarker (line : jsstring) : bool :=
  bool_decide (trim line = lit "---").

(** The backward scan: the turns [i - 1], ..., [0] of the loop, entered
    with [metadataStartIndex = -1] and the given [metadataEndIndex]; the
    result is the pair (metadataStartIndex, metadataEndIndex) when the loop
    is left, by [break] or by running out of lines. *)
Fixpoint scanMarkers (lines : list jsstring) (i : nat) (metadataEndIndex : Z)
  : Z * Z :=
  match i with
  | O => (-1, metadataEndIndex)
  | S j =>
      let trimmedLine := trim (nth j lines []) in
      if bool_decide (trimmedLine = lit "---") then
        if metadataEndIndex =? -1 then scanMarkers lines j (Z.of_nat j)
        else (Z.of_nat j, metadataEndIndex)
      else scanMarkers lines j metadataEndIndex
  end.

(** The [try] block with its [catch]: the value [metadata] holds after
    it.  The variable starts as the empty object and is assigned only when
    the decoded value is a truthy object. *)
Definition decodeMetadata (rawMetadata : jsstring)
  : Completion (gmap jsstring jsstring) :=
  try_catch
    (parsed ← YAML_parse rawMetadata;
     if ToBoolean parsed && typeof_object parsed
     then normalizeMetadataKeys parsed
     else mret ∅)
    (mret ∅).

Definition parseGenFile (content : jsstring) : Completion ParsedGenFile :=
  let lines := split newline content in
  let '(metadataStartIndex, metadataEndIndex) :=
    scanMarkers lines (length lines) (-1) in
  if (metadataStartIndex =? -1) || (metadataEndIndex =? -1)
     || (metadataStartIndex >=? metadataEndIndex)
  then mret {| notation := trim content; metadata := ∅ |}
  else
    let notation := trim (join [newline] (slice lines 0 metadataStartIndex)) in
    let rawMetadata :=
      join [newline] (slice lines (metadataStartIndex + 1) metadataEndIndex) in
    metadata ← decodeMetadata rawMetadata;
    mret {| notation := notation; metadata := metadata |}.

End Parser.

End GenParser.

(** ** The catalogue service, [src/services/score-loader.ts] *)

Module ScoreLoader.

Record Score := {
  path : jsstring;
  filename : jsstring;
  category : jsstring;
  fullCategory : jsstring;
  content : jsstring;
  notation : jsstring;
  title : option jsstring;
  composer : option jsstring;
  timeSignature : option jsstring;
  tempo : option jsstring;
  keySignature : option jsstring;
  metadata : gmap jsstring jsstring
}.

(** The criteria of a query; an absent (or [null]) criterion is [None]. *)
Module Filter.
Record ScoreFilter := {
  title : option jsstring;
  composer : option jsstring;
  category : option jsstring;
  timeSignature : option jsstring;
  tempo : option jsstring;
  keySignature : option jsstring
}.
End Filter.

(** What [readdir] and [readFile] see under the scores directory: files
    with their text, directories with their entries in listing order.
    Reads that fail are outside this model. *)
#[warnings="-register-all"]
Inductive Dirent : Type :=
| FileEntry (name content : jsstring)
| DirEntry (name : jsstring) (entries : list Dirent).

Definition slash : N := 47.

(** The [for ... of] loop of [scanDirectory] over the entries, with the
    array [scores] it pushes onto; [visit] is the loop body's contribution
    for one entry. *)
Fixpoint scanEntries (visit : Dirent -> Completion (list Score))
    (entries : list Dirent) (scores : list Score) : Completion (list Score) :=
  match entries with
  | [] => mret scores
  | entry :: entries' =>
      found ← visit entry;
      scanEntries visit entries' (scores ++ found)
  end.

Section Loader.
Context {Number : Type} `{NumberOps Number}.
Variable YAML_parse : jsstring -> Completion (JSValue Number).

(** [String.prototype.toLowerCase], a function of the whole string fixed
    by the Unicode case tables of the runtime. *)
Variable toLowerCase : jsstring -> jsstring.

(** The entries of [SCORES_DIR]. *)
Variable scoresDir : list Dirent.

Definition relativePathOf (basePath name : jsstring) : jsstring :=
  if truthy basePath then basePath ++ [slash] ++ name else name.

(** The record pushed for a [.gen] file. *)
Definition makeScore (relativePath name content : jsstring)
    (parsed : GenParser.ParsedGenFile) : Score :=
  let notation := GenParser.notation parsed in
  let metadata := GenParser.metadata parsed in
  let pathParts := split slash relativePath in
  let category := nth 0 pathParts [] in
  let fullCategory := join [slash] (slice pathParts 0 (-1)) in
  {| path := relativePath;
     filename := name;
     category := category;
     fullCategory := fullCategory;
     content := content;
     notation := notation;
     metadata := metadata;
     title := metadata !! lit "title";
     composer := metadata !! lit "composer";
     timeSignature := metadata !! lit "timeSignature";
     tempo := metadata !! lit "tempo";
     keySignature := metadata !! lit "keySignature" |}.

(** The loop body of [scanDirectory] for one entry. *)
Fixpoint scanEntry (basePath : jsstring) (entry : Dirent) {struct entry}
  : Completion (list Score) :=
  match entry with
  | DirEntry name entries =>
      let relativePath := relativePathOf basePath name in
      scanEntries (scanEntry relativePath) entries []
  | FileEntry name content =>
      let relativePath := relativePathOf basePath name in
      if endsWith name (lit ".gen") then
        parsed ← GenParser.parseGenFile YAML_parse content;
        mret [makeScore relativePath name content parsed]
      else mret []
  end.

Definition scanDirectory (entries : list Dirent) (basePath : jsstring)
  : Completion (list Score) :=
  scanEntries (scanEntry basePath) entries [].

(** [loadAllScores], threading the module variable [scoresCache]. *)
Definition loadAllScores (scoresCache : option (list Score))
  : Completion (list Score * option (list Score)) :=
  match scoresCache with
  | Some cached => mret (cached, scoresCache)
  | None =>
      scanned ← scanDirectory scoresDir [];
      mret (scanned, Some scanned)
  end.

(** [c && violated(c)] for an optional string criterion. *)
Definition criterion (c : option jsstring) (violated : jsstring -> bool) : bool :=
  match c with
  | Some wanted => truthy wanted && violated wanted
  | None => false
  end.

(** [field?.toLowerCase().includes(lowerQuery)], [undefined] when the
    field is. *)
Definition includesLower (field : option jsstring) (lowerQuery : jsstring)
  : option bool :=
  (fun s => includes (toLowerCase s) lowerQuery) <$> field.

(** Truthiness of [boolean | undefined]. *)
Definition truthy_bool (o : option bool) : bool :=
  match o with Some b => b | None => false end.

Definition eqb_string (a b : jsstring) : bool := bool_decide (a = b).

(** [score.field !== wanted] for an optional field. *)
Definition differs (field : option jsstring) (wanted : jsstring) : bool :=
  negb (bool_decide (field = Some wanted)).

(** The callback of [scores.filter] in [filterScores]. *)
Definition keepScore (filter : Filter.ScoreFilter) (score : Score) : bool :=
  if criterion (Filter.title filter) (fun wanted =>
       negb (truthy_bool (includesLower (title score) (toLowerCase wanted))))
  then false
  else if criterion (Filter.composer filter) (fun wanted =>
       negb (truthy_bool (includesLower (composer score) (toLowerCase wanted))))
  then false
  else if criterion (Filter.category filter) (fun wanted =>
       let filterCat := toLowerCase wanted in
       negb (eqb_string (toLowerCase (category score)) filterCat)
       && negb (eqb_string (toLowerCase (fullCategory score)) filterCat))
  then false
  else if criterion (Filter.timeSignature filter)
            (differs (timeSignature score))
  then false
  else if criterion (Filter.tempo filter) (differs (tempo score))
  then false
  else if criterion (Filter.keySignature filter)
            (differs (keySignature score))
  then false
  else true.

Definition filterScores (filter : option Filter.ScoreFilter)
    (scoresCache : option (list Score))
  : Completion (list Score * option (list Score)) :=
  loaded ← loadAllScores scoresCache;
  let scores := loaded.1 in
  match filter with
  | None => mret (scores, loaded.2)
  | Some filter => mret (List.filter (keepScore filter) scores, loaded.2)
  end.

(** The loop of [getAllCategories] over the scores. *)
Definition collectCategories (scores : list Score) : list jsstring :=
  fold_left (fun categories score =>
    let categories := set_add (category score) categories in
    if truthy (fullCategory score)
       && negb (eqb_string (fullCategory score) (category score))
    then set_add (fullCategory score) categories
    else categories) scores [].

Definition getAllCategories (scoresCache : option (list Score))
  : Completion (list jsstring * option (list Score)) :=
  loaded ← loadAllScores scoresCache;
  mret (JS.sort (collectCategories loaded.1), loaded.2).

(** The loop of [getAllComposers] over the scores. *)
Definition collectComposers (scores : list Score) : list jsstring :=
  fold_left (fun composers score =>
    if truthy_opt (composer score)
    then match composer score with
         | Some c => set_add c composers
         | None => composers
         end
    else composers) scores [].

Definition getAllComposers (scoresCache : option (list Score))
  : Completion (list jsstring * option (list Score)) :=
  loaded ← loadAllScores scoresCache;
  mret (JS.sort (collectComposers loaded.1), loaded.2).

(** [getScoreByPath]: the first record with the path, [null] (here
    [None]) when [find] yields [undefined]; a record is an object and so
    always truthy. *)
Definition getScoreByPath (path : jsstring)
    (scoresCache : option (list Score))
  : Completion (option Score * option (list Score)) :=
  loaded ← loadAllScores scoresCache;
  mret (List.find (fun s => eqb_string (ScoreLoader.path s) path) loaded.1,
        loaded.2).

(** The callback of [scores.filter] in the two searches: the optional
    chain yields [boolean | undefined], which [filter] reads by
    truthiness. *)
Definition searchByTitle (query : jsstring)
    (scoresCache : option (list Score))
  : Completion (list Score * option (list Score)) :=
  loaded ← loadAllScores scoresCache;
  let lowerQuery := toLowerCase query in
  mret (List.filter (fun score =>
          truthy_bool (includesLower (title score) lowerQuery)) loaded.1,
        loaded.2).

Definition searchByComposer (query : jsstring)
    (scoresCache : option (list Score))
  : Completion (list Score * option (list Score)) :=
  loaded ← loadAllScores scoresCache;
  let lowerQuery := toLowerCase query in
  mret (List.filter (fun score =>
          truthy_bool (includesLower (composer score) lowerQuery)) loaded.1,
        loaded.2).

End Loader.

End ScoreLoader.

(** ** Notions the properties are stated with *)

Module Spec.
Import GenParser.

(** The lines of a text whose trimmed content is the marker. *)
Definition markerLines (content : jsstring) : list jsstring :=
  List.filter isMarker (split newline content).

Definition noMarker (lines : list jsstring) : Prop :=
  Forall (fun line => isMarker line = false) lines.

(** The lines split at their last two marker lines: [m1] and [m2] are
    markers, and no line between them or after [m2] is one. *)
Definition atLastTwoMarkers (lines before : list jsstring) (m1 : jsstring)
    (block : list jsstring) (m2 : jsstring) (after : list jsstring) : Prop :=
  lines = before ++ m1 :: block ++ m2 :: after
  /\ isMarker m1 = true /\ isMarker m2 = true
  /\ noMarker block /\ noMarker after.

(** Some hyphen of the key is followed by a letter of [[a-z]]. *)
Fixpoint hasHyphenLetter (key : jsstring) : bool :=
  match key with
  | c :: rest =>
      match rest with
      | letter :: _ =>
          ((c =? hyphen)%N && isLowerAZ letter) || hasHyphenLetter rest
      | [] => false
      end
  | [] => false
  end.

(** The two alphabets, letter by letter. *)
Definition lowerLetters : jsstring := lit "abcdefghijklmnopqrstuvwxyz".
Definition upperLetters : jsstring := lit "ABCDEFGHIJKLMNOPQRSTUVWXYZ".

Fixpoint sameIndex (c : N) (from to : jsstring) : option N :=
  match from, to with
  | x :: from', y :: to' => if (c =? x)%N then Some y else sameIndex c from' to'
  | _, _ => None
  end.

(** The upper-case form of a lower-case letter of the alphabet: the
    letter at the same place of the upper-case alphabet; [None] for any
    other code unit. *)
Definition upperCaseOf (c : N) : option N := sameIndex c lowerLetters upperLetters.

Definition isHyphen (c : N) : bool := bool_decide ([c] = lit "-").

(** Replace the leftmost pair of a hyphen and a lower-case letter by the
    upper-case form of the letter; [None] when the key has no such pair. *)
Fixpoint replaceLeftmost (key : jsstring) : option jsstring :=
  match key with
  | c :: rest =>
      match rest with
      | letter :: rest' =>
          match (if isHyphen c then upperCaseOf letter else None) with
          | Some upper => Some (upper :: rest')
          | None => cons c <$> replaceLeftmost rest
          end
      | [] => None
      end
  | [] => None
  end.

(** Replacing pair after pair until none is left (at most [fuel] times). *)
Fixpoint replaceUntilNone (fuel : nat) (key : jsstring) : jsstring :=
  match fuel with
  | O => key
  | S fuel' =>
      match replaceLeftmost key with
      | Some key' => replaceUntilNone fuel' key'
      | None => key
      end
  end.

(** Hyphen-case to camel case: every pair of a hyphen and a lower-case
    letter replaced, one after the other, until none is left. *)
Definition camelCase (key : jsstring) : jsstring :=
  replaceUntilNone (length key) key.

(** The text of a scalar: [null], [true], [false], the printed number,
    the string itself. *)
Definition scalarText {Number : Type} `{NumberOps Number}
    (v : JSValue Number) : jsstring :=
  match v with
  | JNull => lit "null"
  | JBool true => lit "true"
  | JBool false => lit "false"
  | JNum n => Number_toString n
  | JStr s => s
  | JArr _ | JObj _ => []
  end.

(** A mapping read off a list of scalar pairs, keys camel-cased and
    values as text; of two pairs with one camel-cased key the later one
    stands. *)
Definition camelCased {Number : Type} `{NumberOps Number}
    (pairs : list (jsstring * JSValue Number)) : gmap jsstring jsstring :=
  list_to_map (rev (List.map (fun p => (camelCase p.1, scalarText p.2)) pairs)).

(** The values of the pairs converted by [String], in order; [None] as
    soon as one conversion throws. *)
Fixpoint renderAll {Number : Type} `{NumberOps Number}
    (pairs : list (jsstring * JSValue Number))
  : option (list (jsstring * jsstring)) :=
  match pairs with
  | [] => Some []
  | p :: pairs' =>
      match ToString p.2 with
      | Normal text => cons (p.1, text) <$> renderAll pairs'
      | Throw => None
      end
  end.

(** What a plain object holds after the converted pairs were assigned in
    order under their camel-cased keys: the later of two pairs with one
    key stands, and a pair whose key is [__proto__] leaves no property. *)
Definition stored (texts : list (jsstring * jsstring)) : gmap jsstring jsstring :=
  list_to_map
    (rev (List.filter (fun p => negb (bool_decide (p.1 = lit "__proto__")))
            (List.map (fun p => (camelCase p.1, p.2)) texts))).

(** The key/value pairs a decoded block stands for: the entries of a
    mapping, the indexed items of a sequence, none for a scalar, for
    [null] and when decoding fails. *)
Definition decodedPairs {Number : Type} (decoded : Completion (JSValue Number))
  : list (jsstring * JSValue Number) :=
  match decoded with
  | Normal (JObj props) => props
  | Normal (JArr items) => imap (fun i item => (indexKey i, item)) items
  | _ => []
  end.

(** The metadata a decoded block gives: what is stored of its pairs, and
    nothing when a value cannot be converted. *)
Definition blockMetadata {Number : Type} `{NumberOps Number}
    (decoded : Completion (JSValue Number)) : gmap jsstring jsstring :=
  match renderAll (decodedPairs decoded) with
  | Some texts => stored texts
  | None => ∅
  end.

(** The decoded value is [null] or a scalar: no mapping, no sequence. *)
Definition isScalarOrNull {Number : Type} (v : JSValue Number) : bool :=
  match v with
  | JNull | JBool _ | JNum _ | JStr _ => true
  | JArr _ | JObj _ => false
  end.

(** A document written out from a notation body and an encoded metadata
    block: body, marker line, block, marker line. *)
Definition separator : jsstring := [newline] ++ lit "---" ++ [newline].

Definition serialize (body encoded : jsstring) : jsstring :=
  body ++ separator ++ encoded ++ separator.

Import ScoreLoader.

(** A criterion is set when it is given and not the empty string. *)
Definition whenSet (c : option jsstring) (P : jsstring -> Prop) : Prop :=
  forall wanted, c = Some wanted -> wanted <> [] -> P wanted.

Section Matching.
Variable toLowerCase : jsstring -> jsstring.

(** Case-insensitive containment: the lowered query occurs in the lowered
    field. *)
Definition containsCI (field query : jsstring) : Prop :=
  exists before after,
    toLowerCase field = before ++ toLowerCase query ++ after.

Definition equalCI (a b : jsstring) : Prop := toLowerCase a = toLowerCase b.

(** The conjunction of the set criteria. *)
Definition Matches (filter : Filter.ScoreFilter) (score : Score) : Prop :=
  whenSet (Filter.title filter) (fun wanted =>
    exists t, title score = Some t /\ containsCI t wanted)
  /\ whenSet (Filter.composer filter) (fun wanted =>
    exists c, composer score = Some c /\ containsCI c wanted)
  /\ whenSet (Filter.category filter) (fun wanted =>
    equalCI (category score) wanted \/ equalCI (fullCategory score) wanted)
  /\ whenSet (Filter.timeSignature filter) (fun wanted =>
    timeSignature score = Some wanted)
  /\ whenSet (Filter.tempo filter) (fun wanted => tempo score = Some wanted)
  /\ whenSet (Filter.keySignature filter) (fun wanted =>
    keySignature score = Some wanted).

End Matching.

(** A criterion given as the empty string, read as not given. *)
Definition dropEmpty (c : option jsstring) : option jsstring :=
  match c with
  | Some [] => None
  | _ => c
  end.

Definition clearEmpty (filter : Filter.ScoreFilter) : Filter.ScoreFilter :=
  {| Filter.title := dropEmpty (Filter.title filter);
     Filter.composer := dropEmpty (Filter.composer filter);
     Filter.category := dropEmpty (Filter.category filter);
     Filter.timeSignature := dropEmpty (Filter.timeSignature filter);
     Filter.tempo := dropEmpty (Filter.tempo filter);
     Filter.keySignature := dropEmpty (Filter.keySignature filter) |}.

(** Two records agree on every field a non-empty criterion looks at. *)
Definition agreeWhereSet (filter : Filter.ScoreFilter) (a b : Score) : Prop :=
  (truthy_opt (Filter.title filter) = true -> title a = title b)
  /\ (truthy_opt (Filter.composer filter) = true -> composer a = composer b)
  /\ (truthy_opt (Filter.category filter) = true ->
        category a = category b /\ fullCategory a = fullCategory b)
  /\ (truthy_opt (Filter.timeSignature filter) = true ->
        timeSignature a = timeSignature b)
  /\ (truthy_opt (Filter.tempo filter) = true -> tempo a = tempo b)
  /\ (truthy_opt (Filter.keySignature filter) = true ->
        keySignature a = keySignature b).

(** Entry names as a file system hands them out: not empty, no slash. *)
Definition validName (name : jsstring) : bool :=
  truthy name && negb (bool_decide (slash ∈ name)).

Fixpoint validEntry (entry : Dirent) : bool :=
  match entry with
  | FileEntry name _ => validName name
  | DirEntry name entries => validName name && forallb validEntry entries
  end.

(** [located entries dirs name text]: below [entries], a file [name] with
    content [text] sits inside the chain of directories [dirs]. *)
Inductive located : list Dirent -> list jsstring -> jsstring -> jsstring -> Prop :=
| located_here entries name text :
    FileEntry name text ∈ entries -> located entries [] name text
| located_below entries dir sub dirs name text :
    DirEntry dir sub ∈ entries ->
    located sub dirs name text ->
    located entries (dir :: dirs) name text.

Definition lt_string (a b : jsstring) : Prop := ltb a b = true.

(** Strictly increasing in code-unit order. *)
Definition increasing (l : list jsstring) : Prop :=
  forall i j a b, (i < j)%nat -> l !! i = Some a -> l !! j = Some b ->
    ltb a b = true.

(** Only whitespace, as [trim] understands it. *)
Definition allWhiteSpace (s : jsstring) : Prop :=
  Forall (fun c => isWhiteSpace c = true) s.

(** A [.gen] file of a directory tree: the directories leading to it, its
    name and its text. *)
Record GenFile := {
  inDirs : list jsstring;
  fileName : jsstring;
  fileText : jsstring
}.

Definition below (dir : jsstring) (f : GenFile) : GenFile :=
  {| inDirs := dir :: inDirs f; fileName := fileName f;
     fileText := fileText f |}.

(** The file [f] as seen from above the directories [segs]. *)
Definition under (segs : list jsstring) (f : GenFile) : GenFile :=
  {| inDirs := segs ++ inDirs f; fileName := fileName f;
     fileText := fileText f |}.

(** The [.gen] files of a tree in depth-first listing order. *)
Fixpoint genFilesOfEntry (entry : Dirent) : list GenFile :=
  match entry with
  | FileEntry name text =>
      if endsWith name (lit ".gen")
      then [{| inDirs := []; fileName := name; fileText := text |}]
      else []
  | DirEntry name entries =>
      List.map (below name) (flat_map genFilesOfEntry entries)
  end.

Definition genFiles (entries : list Dirent) : list GenFile :=
  flat_map genFilesOfEntry entries.

Definition segments (f : GenFile) : list jsstring := inDirs f ++ [fileName f].

Definition entryName (entry : Dirent) : jsstring :=
  match entry with
  | FileEntry name _ => name
  | DirEntry name _ => name
  end.

(** No directory lists a name twice. *)
Fixpoint distinctNames (entry : Dirent) : bool :=
  match entry with
  | FileEntry _ _ => true
  | DirEntry _ entries =>
      bool_decide (NoDup (entryName <$> entries))
      && forallb distinctNames entries
  end.

(** A listing as a file system gives it: valid names, none of them twice
    in one directory. *)
Definition wellFormedDir (entries : list Dirent) : bool :=
  forallb validEntry entries
  && bool_decide (NoDup (entryName <$> entries))
  && forallb distinctNames entries.

(** [score] is the record of the file [f]: path, name and content are
    the file's, notation and metadata are the parse of its text, and the
    five projections are looked up in the metadata. *)
Definition recordOf {Number : Type} `{NumberOps Number}
    (YAML_parse : jsstring -> Completion (JSValue Number))
    (score : Score) (f : GenFile) : Prop :=
  path score = join [slash] (segments f)
  /\ filename score = fileName f
  /\ content score = fileText f
  /\ parseGenFile YAML_parse (fileText f)
     = Normal {| GenParser.notation := notation score;
                 GenParser.metadata := metadata score |}
  /\ title score = metadata score !! lit "title"
  /\ composer score = metadata score !! lit "composer"
  /\ timeSignature score = metadata score !! lit "timeSignature"
  /\ tempo score = metadata score !! lit "tempo"
  /\ keySignature score = metadata score !! lit "keySignature".

(** Filters with a single criterion. *)
Definition noCriteria : Filter.ScoreFilter :=
  {| Filter.title := None; Filter.composer := None;
     Filter.category := None; Filter.timeSignature := None;
     Filter.tempo := None; Filter.keySignature := None |}.

Definition titleOnly (wanted : jsstring) : Filter.ScoreFilter :=
  {| Filter.title := Some wanted; Filter.composer := None;
     Filter.category := None; Filter.timeSignature := None;
     Filter.tempo := None; Filter.keySignature := None |}.

Definition composerOnly (wanted : jsstring) : Filter.ScoreFilter :=
  {| Filter.title := None; Filter.composer := Some wanted;
     Filter.category := None; Filter.timeSignature := None;
     Filter.tempo := None; Filter.keySignature := None |}.

Definition categoryOnly (wanted : jsstring) : Filter.ScoreFilter :=
  {| Filter.title := None; Filter.composer := None;
     Filter.category := Some wanted; Filter.timeSignature := None;
     Filter.tempo := None; Filter.keySignature := None |}.

(** [narrow] asks for everything [wide] asks for: each non-empty
    criterion of [wide] is the same in [narrow]. *)
Definition keepsCriterion (wide narrow : option jsstring) : Prop :=
  truthy_opt wide = true -> narrow = wide.

Definition narrows (wide narrow : Filter.ScoreFilter) : Prop :=
  keepsCriterion (Filter.title wide) (Filter.title narrow)
  /\ keepsCriterion (Filter.composer wide) (Filter.composer narrow)
  /\ keepsCriterion (Filter.category wide) (Filter.category narrow)
  /\ keepsCriterion (Filter.timeSignature wide) (Filter.timeSignature narrow)
  /\ keepsCriterion (Filter.tempo wide) (Filter.tempo narrow)
  /\ keepsCriterion (Filter.keySignature wide) (Filter.keySignature narrow).

End Spec.

(** ** Concrete instances for evaluating the definitions *)

Module Sample.

(** Integers as numbers, printed in decimal. *)
#[global] Instance ZNumber : NumberOps Z := {|
  Number_toString := fun z => lit (NilZero.string_of_int (Z.to_int z));
  Number_truthy := fun z => negb (z =? 0)
|}.

(** A decoder given by the values it returns on finitely many texts; it
    throws on every other text. *)
Definition tableDecoder (table : list (jsstring * JSValue Z))
    (text : jsstring) : Completion (JSValue Z) :=
  match List.find (fun row => bool_decide (row.1 = text)) table with
  | Some row => Normal row.2
  | None => Throw
  end.

(** Lower-casing of the letters A-Z; on ASCII text this is what
    [toLowerCase] does. *)
Definition asciiLower (s : jsstring) : jsstring :=
  List.map (fun c => if ((65 <=? c) && (c <=? 90))%N then (c + 32)%N else c) s.

Definition LF : string := String (ascii_of_nat 10) EmptyString.

(** The document of the format description in [gen-parser.ts]. *)
Definition odeToJoy : jsstring :=
  lit ("E E F G" ++ LF ++ "G F E D" ++ LF ++ "---" ++ LF
       ++ "title: Ode to Joy" ++ LF
       ++ "composer: Ludwig van Beethoven" ++ LF
       ++ "time-signature: 4/4" ++ LF ++ "---" ++ LF).

Definition odeToJoyBlock : jsstring :=
  lit ("title: Ode to Joy" ++ LF ++ "composer: Ludwig van Beethoven" ++ LF
       ++ "time-signature: 4/4").

Definition odeToJoyPairs : list (jsstring * JSValue Z) :=
  [(lit "title", JStr (lit "Ode to Joy"));
   (lit "composer", JStr (lit "Ludwig van Beethoven"));
   (lit "time-signature", JStr (lit "4/4"))].

Definition odeDecoder : jsstring -> Completion (JSValue Z) :=
  tableDecoder [(odeToJoyBlock, JObj odeToJoyPairs)].

(** A mapping whose one value is a text of three lines, the middle one
    being three hyphens, and its block-literal encoding. *)
Definition hymnPairs : list (jsstring * JSValue Z) :=
  [(lit "lyrics", JStr (lit ("la" ++ LF ++ "---" ++ LF ++ "la")))].

Definition hymnEncoded : jsstring :=
  lit ("lyrics: |-" ++ LF ++ "  la" ++ LF ++ "  ---" ++ LF ++ "  la" ++ LF).

Definition hymnDecoder : jsstring -> Completion (JSValue Z) :=
  tableDecoder [(hymnEncoded, JObj hymnPairs);
                (lit ("  la" ++ LF), JStr (lit "la"))].

(** A scores directory with a file at the top, one inside a category and
    one inside a subcategory. *)
Definition sampleDir : list ScoreLoader.Dirent :=
  [ScoreLoader.FileEntry (lit "scale.gen") (lit "C D E");
   ScoreLoader.DirEntry (lit "classical")
     [ScoreLoader.FileEntry (lit "ode.gen") odeToJoy;
      ScoreLoader.FileEntry (lit "notes.txt") (lit "skip");
      ScoreLoader.DirEntry (lit "baroque")
        [ScoreLoader.FileEntry (lit "air.gen") (lit "D D")]]].

(** The records of [sampleDir], as the scan builds them. *)
Definition sampleScores : list ScoreLoader.Score :=
  match ScoreLoader.scanDirectory odeDecoder sampleDir [] with
  | Normal scores => scores
  | Throw => []
  end.

(** A query for the composers whose name contains [BEET]. *)
Definition beetFilter : ScoreLoader.Filter.ScoreFilter :=
  {| ScoreLoader.Filter.title := None;
     ScoreLoader.Filter.composer := Some (lit "BEET");
     ScoreLoader.Filter.category := None;
     ScoreLoader.Filter.timeSignature := None;
     ScoreLoader.Filter.tempo := None;
     ScoreLoader.Filter.keySignature := None |}.

(** What [odeToJoy] parses to. *)
Definition odeToJoyParsed : GenParser.ParsedGenFile :=
  {| GenParser.notation := lit ("E E F G" ++ LF ++ "G F E D");
     GenParser.metadata :=
       <[lit "timeSignature" := lit "4/4"]>
         (<[lit "composer" := lit "Ludwig van Beethoven"]>
            (<[lit "title" := lit "Ode to Joy"]> ∅)) |}.

Definition odeToJoyBefore : list jsstring :=
  [lit "E E F G"; lit "G F E D"].

Definition odeToJoyLines : list jsstring :=
  [lit "title: Ode to Joy"; lit "composer: Ludwig van Beethoven";
   lit "time-signature: 4/4"].

(** The same body and block with padded markers, CRLF line ends on the
    marker lines and text after the closing marker. *)
Definition CR : string := String (ascii_of_nat 13) EmptyString.

Definition odeToJoyPadded : jsstring :=
  lit ("E E F G" ++ LF ++ "G F E D" ++ LF ++ "  ---" ++ CR ++ LF
       ++ "title: Ode to Joy" ++ LF
       ++ "composer: Ludwig van Beethoven" ++ LF
       ++ "time-signature: 4/4" ++ LF ++ "---" ++ CR ++ LF
       ++ "not part of anything" ++ LF).

(** A document whose two markers are adjacent, and a decoder that yields
    [null] on the empty text. *)
Definition emptyBlockDoc : jsstring :=
  lit ("E E" ++ LF ++ "---" ++ LF ++ "---" ++ LF).

Definition nullDecoder : jsstring -> Completion (JSValue Z) :=
  tableDecoder [([], JNull)].

(** A document whose block is a sequence of two items. *)
Definition listDoc : jsstring :=
  lit ("E E" ++ LF ++ "---" ++ LF ++ "- la" ++ LF ++ "- 7" ++ LF ++ "---").

Definition listItems : list (JSValue Z) := [JStr (lit "la"); JNum 7].

Definition listDecoder : jsstring -> Completion (JSValue Z) :=
  tableDecoder [(lit ("- la" ++ LF ++ "- 7"), JArr listItems)].

(** A block with the key [__proto__], as the decoder hands it over (the
    key is an own property of the decoded object), and a document with
    that block. *)
Definition protoPairs : list (jsstring * JSValue Z) :=
  [(lit "__proto__", JStr (lit "evil"));
   (lit "time-signature", JStr (lit "4/4"))].

Definition protoLines : list jsstring :=
  [lit "__proto__: evil"; lit "time-signature: 4/4"].

Definition protoDoc : jsstring :=
  lit ("E E" ++ LF ++ "---" ++ LF ++ "__proto__: evil" ++ LF
       ++ "time-signature: 4/4" ++ LF ++ "---" ++ LF).

Definition protoDecoder : jsstring -> Completion (JSValue Z) :=
  tableDecoder
    [(lit ("__proto__: evil" ++ LF ++ "time-signature: 4/4"), JObj protoPairs)].

(** A mapping one of whose values is a mapping with the key [toString],
    and a document with such a block. *)
Definition shadowPairs : list (jsstring * JSValue Z) :=
  [(lit "title", JStr (lit "T"));
   (lit "extra", JObj [(lit "toString", JStr (lit "x"))])].

Definition shadowDoc : jsstring :=
  lit ("E E" ++ LF ++ "---" ++ LF ++ "title: T" ++ LF ++ "extra:" ++ LF
       ++ "  toString: x" ++ LF ++ "---").

Definition shadowDecoder : jsstring -> Completion (JSValue Z) :=
  tableDecoder
    [(lit ("title: T" ++ LF ++ "extra:" ++ LF ++ "  toString: x"),
      JObj shadowPairs)].

(** [beetFilter] with a category criterion added. *)
Definition beetClassicalFilter : ScoreLoader.Filter.ScoreFilter :=
  {| ScoreLoader.Filter.title := Some [];
     ScoreLoader.Filter.composer := Some (lit "BEET");
     ScoreLoader.Filter.category := Some (lit "Classical");
     ScoreLoader.Filter.timeSignature := None;
     ScoreLoader.Filter.tempo := None;
     ScoreLoader.Filter.keySignature := None |}.

(** The scores directory after a file was added. *)
Definition grownDir : list ScoreLoader.Dirent :=
  ScoreLoader.FileEntry (lit "new.gen") (lit "A B") :: sampleDir.

End Sample.

(** * Properties *)

(** ** Splitting, joining and slicing *)

Section StringFacts.
Import JS.

Lemma elem_of_rev {A} (x : A) (l : list A) : x ∈ rev l <-> x ∈ l.
Proof. rewrite !list_elem_of_In. symmetry. apply in_rev. Qed.

Lemma NoDup_rev_list {A} (l : list A) : NoDup l -> NoDup (rev l).
Proof. rewrite !NoDup_ListNoDup. apply List.NoDup_rev. Qed.

Lemma split_nonempty sep s : split sep s <> [].
Proof.
  destruct s as [|c t]; simpl; [discriminate|].
  destruct (c =? sep)%N; [discriminate|].
  destruct (split sep t); discriminate.
Qed.

Lemma split_cons_other sep c t :
  c <> sep ->
  exists piece rest,
    split sep t = piece :: rest /\ split sep (c :: t) = (c :: piece) :: rest.
Proof.
  intros Hc. simpl. apply N.eqb_neq in Hc. rewrite Hc.
  destruct (split sep t) as [|piece rest] eqn:E.
  - exfalso. exact (split_nonempty _ _ E).
  - eauto.
Qed.

Lemma split_app_sep sep a b :
  split sep (a ++ sep :: b) = split sep a ++ split sep b.
Proof.
  induction a as [|c a IH]; simpl.
  - by rewrite N.eqb_refl.
  - destruct (c =? sep)%N; [by rewrite IH|].
    rewrite IH. destruct (split sep a) as [|p r] eqn:E; [|done].
    exfalso. exact (split_nonempty _ _ E).
Qed.

Lemma split_no_sep sep s : sep ∉ s -> split sep s = [s].
Proof.
  induction s as [|c t IH]; intros Hs; [done|].
  simpl. destruct (N.eqb_spec c sep) as [->|Hc].
  - exfalso. apply Hs. left.
  - rewrite IH; [done|]. intros Hin. apply Hs. by right.
Qed.

Lemma join_cons sep p q rest :
  join sep (p :: q :: rest) = p ++ sep ++ join sep (q :: rest).
Proof. done. Qed.

Lemma join_split sep s : join [sep] (split sep s) = s.
Proof.
  induction s as [|c t IH]; [done|].
  destruct (N.eqb_spec c sep) as [->|Hc].
  - simpl. rewrite N.eqb_refl.
    destruct (split sep t) as [|p r] eqn:E.
    + exfalso. exact (split_nonempty _ _ E).
    + rewrite join_cons, IH. done.
  - destruct (split_cons_other sep c t Hc) as (piece & rest & E1 & E2).
    rewrite E2. rewrite E1 in IH.
    destruct rest as [|q rest]; simpl in *; by rewrite IH.
Qed.

Lemma join_snoc sep parts p :
  parts <> [] -> join sep (parts ++ [p]) = join sep parts ++ sep ++ p.
Proof.
  induction parts as [|q parts IH]; [done|]. intros _.
  destruct parts as [|r parts]; [done|].
  change ((q :: r :: parts) ++ [p]) with (q :: (r :: parts) ++ [p]).
  change ((r :: parts) ++ [p]) with (r :: parts ++ [p]) at 1.
  rewrite join_cons.
  change (r :: parts ++ [p]) with ((r :: parts) ++ [p]).
  rewrite IH by done. rewrite join_cons.
  by rewrite <- !app_assoc.
Qed.

Lemma split_join sep parts :
  parts <> [] -> Forall (fun p => sep ∉ p) parts ->
  split sep (join [sep] parts) = parts.
Proof.
  induction parts as [|p parts IH]; [done|]. intros _ Hall.
  apply Forall_cons in Hall as [Hp Hall].
  destruct parts as [|q parts].
  - simpl. by apply split_no_sep.
  - rewrite join_cons. change ([sep] ++ ?x) with (sep :: x).
    rewrite split_app_sep, IH by done.
    by rewrite split_no_sep.
Qed.

Lemma slice_prefix {A} (pre rest : list A) :
  slice (pre ++ rest) 0 (Z.of_nat (length pre)) = pre.
Proof.
  unfold slice, relIndex. rewrite length_app.
  replace (0 <? 0) with false by done.
  destruct (Z.ltb_spec (Z.of_nat (length pre)) 0); [lia|].
  rewrite Z.min_l, Z.min_l by lia.
  rewrite Z.sub_0_r, Nat2Z.id.
  change (Z.to_nat 0) with 0%nat. rewrite drop_0.
  by rewrite take_app_length.
Qed.

Lemma slice_middle {A} (pre mid post : list A) (x : A) :
  slice (pre ++ x :: mid ++ post)
        (Z.of_nat (length pre) + 1)
        (Z.of_nat (length pre + 1 + length mid)) = mid.
Proof.
  unfold slice, relIndex. rewrite length_app. simpl. rewrite length_app.
  destruct (Z.ltb_spec (Z.of_nat (length pre) + 1) 0); [lia|].
  destruct (Z.ltb_spec (Z.of_nat (length pre + 1 + length mid)) 0); [lia|].
  rewrite !Z.min_l by lia.
  replace (Z.to_nat (Z.of_nat (length pre) + 1)) with (length pre + 1)%nat by lia.
  replace (Z.to_nat (Z.of_nat (length pre + 1 + length mid)
                     - (Z.of_nat (length pre) + 1))) with (length mid) by lia.
  replace (pre ++ x :: mid ++ post) with ((pre ++ [x]) ++ mid ++ post)
    by (by rewrite <- app_assoc).
  replace (length pre + 1)%nat with (length (pre ++ [x]))
    by (rewrite length_app; simpl; lia).
  rewrite drop_app_length. by rewrite take_app_length.
Qed.

Lemma slice_drop_last {A} (parts : list A) (p : A) :
  slice (parts ++ [p]) 0 (-1) = parts.
Proof.
  unfold slice, relIndex. rewrite length_app. simpl.
  replace (0 <? 0) with false by done.
  replace (-1 <? 0) with true by done.
  rewrite Z.min_l, Z.max_l by lia.
  replace (Z.to_nat (Z.of_nat (length parts + 1) + -1 - 0)) with (length parts)
    by lia.
  change (Z.to_nat 0) with 0%nat. rewrite drop_0.
  by rewrite take_app_length.
Qed.

Lemma startsWith_spec s pre :
  startsWith s pre = true <-> exists post, s = pre ++ post.
Proof.
  revert s. induction pre as [|p pre IH]; intros s; simpl.
  - split; eauto.
  - destruct s as [|c s].
    + split; [done|]. by intros [post Hpost].
    + rewrite andb_true_iff, N.eqb_eq, IH. split.
      * intros [-> [post ->]]. eauto.
      * intros [post Hpost]. injection Hpost as -> ->. eauto.
Qed.

Lemma includes_spec s sub :
  includes s sub = true <-> exists before after, s = before ++ sub ++ after.
Proof.
  induction s as [|c s IH]; simpl.
  - rewrite orb_false_r, startsWith_spec. split.
    + intros [post Hpost]. exists [], post. done.
    + intros (before & after & Heq).
      destruct before; [|done]. eauto.
  - rewrite orb_true_iff, startsWith_spec, IH. split.
    + intros [[post Hpost]|(before & after & ->)].
      * exists [], post. done.
      * exists (c :: before), after. done.
    + intros (before & after & Heq). destruct before as [|b before].
      * left. eauto.
      * right. injection Heq as -> ->. eauto.
Qed.

End StringFacts.

(** ** The backward marker scan *)

Section ScanFacts.
Import JS GenParser Spec.

Lemma noMarker_filter lines :
  noMarker lines <-> List.filter isMarker lines = [].
Proof.
  unfold noMarker. induction lines as [|x l IH]; simpl.
  - split; [done|constructor].
  - destruct (isMarker x) eqn:E.
    + split; [|done]. intros Hall. apply Forall_cons in Hall as [Hx _].
      congruence.
    + rewrite <- IH. split.
      * intros Hall. by apply Forall_cons in Hall as [_ ?].
      * intros Hall. by constructor.
Qed.

Lemma noMarker_app a b : noMarker (a ++ b) <-> noMarker a /\ noMarker b.
Proof. apply Forall_app. Qed.

(** Every list of lines either has no marker or splits at its last one. *)
Lemma last_marker lines :
  noMarker lines \/
  exists pre m post,
    lines = pre ++ m :: post /\ isMarker m = true /\ noMarker post.
Proof.
  induction lines as [|x l [IH|(pre & m & post & -> & Hm & Hpost)]].
  - left. constructor.
  - destruct (isMarker x) eqn:E.
    + right. exists [], x, l. done.
    + left. by constructor.
  - right. exists (x :: pre), m, post. done.
Qed.

Lemma count_split pre m post :
  isMarker m = true -> noMarker post ->
  length (List.filter isMarker (pre ++ m :: post))
  = S (length (List.filter isMarker pre)).
Proof.
  intros Hm Hpost. rewrite List.filter_app, length_app. simpl. rewrite Hm.
  apply noMarker_filter in Hpost. rewrite Hpost. simpl. lia.
Qed.

(** Fewer than two marker lines: none at all, or exactly one. *)
Lemma few_markers lines :
  (length (List.filter isMarker lines) < 2)%nat ->
  noMarker lines \/
  exists pre m post,
    lines = pre ++ m :: post /\ isMarker m = true
    /\ noMarker pre /\ noMarker post.
Proof.
  intros Hlt. destruct (last_marker lines)
    as [Hnone|(pre & m & post & -> & Hm & Hpost)]; [by left|].
  right. exists pre, m, post. repeat split; try done.
  rewrite count_split in Hlt by done.
  apply noMarker_filter. destruct (List.filter isMarker pre); [done|].
  simpl in Hlt. lia.
Qed.

(** At least two marker lines: the text splits at its last two. *)
Lemma two_markers lines :
  (2 <= length (List.filter isMarker lines))%nat ->
  exists before m1 block m2 after,
    lines = before ++ m1 :: block ++ m2 :: after
    /\ isMarker m1 = true /\ isMarker m2 = true
    /\ noMarker block /\ noMarker after.
Proof.
  intros Hge. destruct (last_marker lines)
    as [Hnone|(pre & m2 & after & -> & Hm2 & Hafter)].
  - apply noMarker_filter in Hnone. rewrite Hnone in Hge. simpl in Hge. lia.
  - rewrite count_split in Hge by done.
    destruct (last_marker pre)
      as [Hnone|(before & m1 & block & -> & Hm1 & Hblock)].
    + apply noMarker_filter in Hnone. rewrite Hnone in Hge. simpl in Hge. lia.
    + exists before, m1, block, m2, after.
      rewrite <- app_assoc. done.
Qed.

(** The decomposition at the last two markers is unique. *)
Lemma two_markers_unique b1 m1 k1 n1 a1 b2 m2 k2 n2 a2 :
  b1 ++ m1 :: k1 ++ n1 :: a1 = b2 ++ m2 :: k2 ++ n2 :: a2 ->
  isMarker m1 = true -> isMarker n1 = true -> noMarker k1 -> noMarker a1 ->
  isMarker m2 = true -> isMarker n2 = true -> noMarker k2 -> noMarker a2 ->
  b1 = b2 /\ k1 = k2.
Proof.
  assert (Hlast : forall (p q : list jsstring) x y s t,
    p ++ x :: s = q ++ y :: t ->
    isMarker x = true -> isMarker y = true -> noMarker s -> noMarker t ->
    p = q /\ s = t).
  { induction p as [|c p IH]; intros q x y s t Heq Hx Hy Hs Ht.
    - destruct q as [|d q]; simpl in Heq.
      + injection Heq as -> ->. done.
      + injection Heq as -> ->.
        apply noMarker_app in Hs as [_ Hs].
        apply Forall_cons in Hs as [Hs _]. congruence.
    - destruct q as [|d q]; simpl in Heq.
      + injection Heq as -> <-.
        apply noMarker_app in Ht as [_ Ht].
        apply Forall_cons in Ht as [Ht _]. congruence.
      + injection Heq as -> Heq.
        destruct (IH q x y s t Heq Hx Hy Hs Ht) as [-> ->]. done. }
  intros Heq Hm1 Hn1 Hk1 Ha1 Hm2 Hn2 Hk2 Ha2.
  replace (b1 ++ m1 :: k1 ++ n1 :: a1) with ((b1 ++ m1 :: k1) ++ n1 :: a1) in Heq
    by (by rewrite <- app_assoc).
  replace (b2 ++ m2 :: k2 ++ n2 :: a2) with ((b2 ++ m2 :: k2) ++ n2 :: a2) in Heq
    by (by rewrite <- app_assoc).
  destruct (Hlast _ _ _ _ _ _ Heq Hn1 Hn2 Ha1 Ha2) as [Heq' _].
  destruct (Hlast _ _ _ _ _ _ Heq' Hm1 Hm2 Hk1 Hk2) as [-> ->]. done.
Qed.

(** One turn of the loop, at the line that follows [pre]. *)
Lemma scanMarkers_turn pre x post e :
  scanMarkers (pre ++ x :: post) (S (length pre)) e =
  if isMarker x then
    if e =? -1
    then scanMarkers (pre ++ x :: post) (length pre) (Z.of_nat (length pre))
    else (Z.of_nat (length pre), e)
  else scanMarkers (pre ++ x :: post) (length pre) e.
Proof.
  simpl. rewrite nth_middle. done.
Qed.

(** Lines without a marker are passed over. *)
Lemma scanMarkers_skip mid : forall pre post e,
  noMarker mid ->
  scanMarkers (pre ++ mid ++ post) (length (pre ++ mid)) e
  = scanMarkers (pre ++ mid ++ post) (length pre) e.
Proof.
  induction mid as [|x mid IH] using rev_ind; intros pre post e Hmid.
  - by rewrite app_nil_r.
  - apply noMarker_app in Hmid as [Hmid Hx].
    apply Forall_cons in Hx as [Hx _].
    assert (E : pre ++ (mid ++ [x]) ++ post = (pre ++ mid) ++ x :: post)
      by (by rewrite <- !app_assoc).
    assert (L : length (pre ++ mid ++ [x]) = S (length (pre ++ mid)))
      by (rewrite !length_app; simpl; lia).
    rewrite E, L, scanMarkers_turn, Hx.
    rewrite <- (app_assoc pre mid (x :: post)).
    by apply IH.
Qed.

Lemma scanMarkers_skip_end pre post e :
  noMarker post ->
  scanMarkers (pre ++ post) (length (pre ++ post)) e
  = scanMarkers (pre ++ post) (length pre) e.
Proof.
  intros Hpost.
  pose proof (scanMarkers_skip post pre [] e Hpost) as Hskip.
  by rewrite app_nil_r in Hskip.
Qed.

Lemma scanMarkers_none pre post e :
  noMarker pre ->
  scanMarkers (pre ++ post) (length pre) e = (-1, e).
Proof.
  intros Hpre.
  pose proof (scanMarkers_skip pre [] post e Hpre) as Hskip.
  simpl in Hskip. by rewrite Hskip.
Qed.

Lemma scanMarkers_zero lines :
  noMarker lines -> scanMarkers lines (length lines) (-1) = (-1, -1).
Proof.
  intros Hnone. pose proof (scanMarkers_none lines [] (-1) Hnone) as Hscan.
  by rewrite app_nil_r in Hscan.
Qed.

Lemma scanMarkers_one pre m post :
  isMarker m = true -> noMarker pre -> noMarker post ->
  scanMarkers (pre ++ m :: post) (length (pre ++ m :: post)) (-1)
  = (-1, Z.of_nat (length pre)).
Proof.
  intros Hm Hpre Hpost.
  assert (E : pre ++ m :: post = (pre ++ [m]) ++ post)
    by (by rewrite <- app_assoc).
  assert (L : length (pre ++ [m]) = S (length pre))
    by (rewrite length_app; simpl; lia).
  rewrite E, scanMarkers_skip_end, L, <- E by done.
  rewrite scanMarkers_turn, Hm. simpl.
  by apply scanMarkers_none.
Qed.

Lemma scanMarkers_two before m1 block m2 after :
  isMarker m1 = true -> isMarker m2 = true ->
  noMarker block -> noMarker after ->
  let lines := before ++ m1 :: block ++ m2 :: after in
  scanMarkers lines (length lines) (-1)
  = (Z.of_nat (length before),
     Z.of_nat (length before + 1 + length block)).
Proof.
  intros Hm1 Hm2 Hblock Hafter lines. subst lines.
  set (upto := (before ++ [m1]) ++ block).
  assert (E1 : before ++ m1 :: block ++ m2 :: after = (upto ++ [m2]) ++ after)
    by (unfold upto; by rewrite <- !app_assoc).
  assert (L1 : length (upto ++ [m2]) = S (length upto))
    by (rewrite length_app; simpl; lia).
  assert (E2 : (upto ++ [m2]) ++ after = upto ++ m2 :: after)
    by (by rewrite <- app_assoc).
  rewrite E1, scanMarkers_skip_end, L1, E2 by done.
  rewrite scanMarkers_turn, Hm2. simpl.
  assert (Hlen : length upto = (length before + 1 + length block)%nat).
  { unfold upto. rewrite !length_app. simpl. lia. }
  assert (E3 : upto ++ m2 :: after = (before ++ [m1]) ++ block ++ m2 :: after)
    by (unfold upto; by rewrite <- !app_assoc).
  assert (L3 : length (before ++ [m1]) = S (length before))
    by (rewrite length_app; simpl; lia).
  assert (E4 : (before ++ [m1]) ++ block ++ m2 :: after
               = before ++ m1 :: block ++ m2 :: after)
    by (by rewrite <- !app_assoc).
  rewrite E3. unfold upto at 1.
  rewrite scanMarkers_skip, L3, E4 by done.
  rewrite scanMarkers_turn, Hm1, <- E4, <- E3, Hlen.
  destruct (Z.eqb_spec (Z.of_nat (length before + 1 + length block)) (-1));
    [lia|done].
Qed.

End ScanFacts.

(** ** Key normalisation *)

Section KeyFacts.
Import JS GenParser Spec.

(** Induction following the two-code-unit look-ahead of [camelKey]. *)
Lemma key_pair_ind (P : jsstring -> Prop) :
  P [] ->
  (forall c, P [c]) ->
  (forall c letter rest, P rest -> P (letter :: rest) -> P (c :: letter :: rest)) ->
  forall key, P key.
Proof.
  intros Hnil Hone Hstep key.
  assert (Hboth : P key /\ forall c, P (c :: key)).
  { induction key as [|letter rest [IH1 IH2]].
    - split; [done|]. apply Hone.
    - split; [apply IH2|]. intros c. apply Hstep; [done|apply IH2]. }
  apply Hboth.
Qed.

Lemma camelKey_pair c letter rest :
  camelKey (c :: letter :: rest) =
  if (c =? hyphen)%N && isLowerAZ letter
  then letterToUpperCase letter :: camelKey rest
  else c :: camelKey (letter :: rest).
Proof. done. Qed.

Lemma hasHyphenLetter_pair c letter rest :
  hasHyphenLetter (c :: letter :: rest) =
  ((c =? hyphen)%N && isLowerAZ letter) || hasHyphenLetter (letter :: rest).
Proof. done. Qed.

Lemma isHyphen_spec c : isHyphen c = (c =? hyphen)%N.
Proof.
  unfold isHyphen, hyphen. change (lit "-") with [45%N].
  case_bool_decide as Hc.
  - injection Hc as ->. done.
  - symmetry. apply N.eqb_neq. intros ->. done.
Qed.

(** The alphabet table and the arithmetic of the parser agree: a code
    unit has an upper-case form exactly when it is in [[a-z]], and the
    form is the one [toUpperCase] gives. *)
Lemma upperCaseOf_spec letter :
  upperCaseOf letter
  = if isLowerAZ letter then Some (letterToUpperCase letter) else None.
Proof.
  unfold upperCaseOf.
  assert (El : lowerLetters = [97;98;99;100;101;102;103;104;105;106;107;108;109;110;111;112;113;114;115;116;117;118;119;120;121;122]%N) by (vm_compute; reflexivity).
  assert (Eu : upperLetters = [65;66;67;68;69;70;71;72;73;74;75;76;77;78;79;80;81;82;83;84;85;86;87;88;89;90]%N) by (vm_compute; reflexivity).
  rewrite El, Eu. cbn [sameIndex].
  destruct (isLowerAZ letter) eqn:E.
  - unfold isLowerAZ in E. apply andb_true_iff in E as [Hlo Hhi].
    apply N.leb_le in Hlo, Hhi.
    repeat match goal with
    | |- context [(letter =? ?x)%N] =>
        destruct (N.eqb_spec letter x) as [->|?]; [vm_compute; reflexivity|]
    end.
    lia.
  - repeat match goal with
    | |- context [(letter =? ?x)%N] =>
        destruct (N.eqb_spec letter x) as [->|?];
          [vm_compute in E; discriminate E|]
    end.
    reflexivity.
Qed.

Lemma replaceLeftmost_pair c letter rest :
  replaceLeftmost (c :: letter :: rest) =
  if (c =? hyphen)%N && isLowerAZ letter
  then Some (letterToUpperCase letter :: rest)
  else cons c <$> replaceLeftmost (letter :: rest).
Proof.
  transitivity
    (match (if isHyphen c then upperCaseOf letter else None) with
     | Some upper => Some (upper :: rest)
     | None => cons c <$> replaceLeftmost (letter :: rest)
     end); [done|].
  rewrite isHyphen_spec, upperCaseOf_spec.
  by destruct (c =? hyphen)%N, (isLowerAZ letter).
Qed.

Lemma upper_not_hyphen letter :
  isLowerAZ letter = true -> (letterToUpperCase letter =? hyphen)%N = false.
Proof.
  unfold isLowerAZ, letterToUpperCase, hyphen. intros Hl.
  apply andb_true_iff in Hl as [H1 H2].
  apply N.leb_le in H1, H2. apply N.eqb_neq. lia.
Qed.

Lemma upper_not_lower letter :
  isLowerAZ letter = true -> isLowerAZ (letterToUpperCase letter) = false.
Proof.
  unfold isLowerAZ, letterToUpperCase. intros Hl.
  apply andb_true_iff in Hl as [H1 H2].
  apply N.leb_le in H1, H2. apply andb_false_iff. left.
  apply N.leb_gt. lia.
Qed.

Lemma camelKey_cons_other c rest :
  (c =? hyphen)%N = false -> camelKey (c :: rest) = c :: camelKey rest.
Proof. intros Hc. simpl. rewrite Hc. by destruct rest. Qed.

(** The first code unit of a normalised key is the original one, or is
    not a lower-case letter. *)
Lemma camelKey_head letter rest :
  exists h t, camelKey (letter :: rest) = h :: t
    /\ (isLowerAZ h = true -> h = letter).
Proof.
  simpl. destruct rest as [|x rest]; [by exists letter, []|].
  destruct ((letter =? hyphen)%N && isLowerAZ x) eqn:E.
  - apply andb_true_iff in E as [_ Hx].
    eexists _, _. split; [done|]. intros Hup.
    by rewrite upper_not_lower in Hup.
  - eexists _, _. split; done.
Qed.

Lemma camelKey_no_pair key : hasHyphenLetter (camelKey key) = false.
Proof.
  induction key as [| c | c letter rest IH1 IH2] using key_pair_ind;
    [done|done|].
  rewrite camelKey_pair.
  destruct ((c =? hyphen)%N && isLowerAZ letter) eqn:E.
  - apply andb_true_iff in E as [_ Hl].
    destruct (camelKey rest) as [|x r] eqn:Er; [done|].
    rewrite hasHyphenLetter_pair, upper_not_hyphen by done. done.
  - destruct (camelKey_head letter rest) as (h & t & Eh & Hh).
    rewrite Eh in *. rewrite hasHyphenLetter_pair, orb_false_iff. split.
    + destruct (isLowerAZ h) eqn:El.
      * rewrite (Hh eq_refl) in El. by rewrite El in E.
      * by rewrite andb_false_r.
    + exact IH2.
Qed.

Lemma no_pair_fixed key : hasHyphenLetter key = false -> camelKey key = key.
Proof.
  induction key as [| c | c letter rest IH1 IH2] using key_pair_ind;
    [done|done|].
  rewrite hasHyphenLetter_pair, camelKey_pair. intros Hno.
  apply orb_false_iff in Hno as [Hhead Htail].
  rewrite Hhead. f_equal. by apply IH2.
Qed.

Lemma replaceLeftmost_none key :
  replaceLeftmost key = None <-> hasHyphenLetter key = false.
Proof.
  induction key as [|c rest IH]; [done|].
  destruct rest as [|letter rest']; [done|].
  rewrite replaceLeftmost_pair, hasHyphenLetter_pair.
  destruct ((c =? hyphen)%N && isLowerAZ letter); [done|].
  rewrite orb_false_l, <- IH.
  destruct (replaceLeftmost (letter :: rest')); done.
Qed.

(** Replacing the leftmost pair shortens the key by one and leaves the
    one-pass result unchanged. *)
Lemma replaceLeftmost_step key key' :
  replaceLeftmost key = Some key' ->
  S (length key') = length key
  /\ camelKey key' = camelKey key
  /\ (forall h t, key' = h :: t -> isLowerAZ h = true ->
        exists t0, key = h :: t0).
Proof.
  revert key'. induction key as [|c rest IH]; intros key' Hrep; [done|].
  destruct rest as [|letter rest']; [done|].
  rewrite replaceLeftmost_pair in Hrep.
  destruct ((c =? hyphen)%N && isLowerAZ letter) eqn:E.
  - injection Hrep as <-. apply andb_true_iff in E as [Hc Hl].
    split; [done|]. split.
    + rewrite camelKey_cons_other by (by apply upper_not_hyphen).
      by rewrite camelKey_pair, Hc, Hl.
    + intros h t Heq Hh. injection Heq as <- <-.
      by rewrite upper_not_lower in Hh.
  - destruct (replaceLeftmost (letter :: rest')) as [k|] eqn:Er; [|done].
    injection Hrep as <-.
    destruct (IH k eq_refl) as (Hlen & Hcamel & Hhead).
    split; [simpl in *; lia|]. split.
    + destruct k as [|h t];
        [destruct rest'; [simpl in Er; done|simpl in Hlen; lia]|].
      rewrite !camelKey_pair, E, <- Hcamel.
      destruct (isLowerAZ h) eqn:Eh.
      * destruct (Hhead h t eq_refl Eh) as [t0 Heq].
        injection Heq as Hl _. subst letter.
        rewrite Eh in E. by rewrite E.
      * by rewrite andb_false_r.
    + intros h t Heq _. injection Heq as <- _. eauto.
Qed.

Lemma replaceUntilNone_camelKey fuel : forall key,
  (length key <= fuel)%nat -> replaceUntilNone fuel key = camelKey key.
Proof.
  induction fuel as [|fuel IH]; intros key Hlen.
  - destruct key; [done|simpl in Hlen; lia].
  - simpl. destruct (replaceLeftmost key) as [key'|] eqn:E.
    + destruct (replaceLeftmost_step _ _ E) as (Hl & Hc & _).
      rewrite IH by lia. done.
    + symmetry. apply no_pair_fixed. by apply replaceLeftmost_none.
Qed.

(** The rewrite of the parser is the conversion to camel case. *)
Lemma camelCase_camelKey key : camelCase key = camelKey key.
Proof. unfold camelCase. by apply replaceUntilNone_camelKey. Qed.

End KeyFacts.

(** ** The parser *)

Section ParserProperties.
Import JS GenParser Spec.
Context {Number : Type} `{NumberOps Number}.
Variable YAML_parse : jsstring -> Completion (JSValue Number).

Lemma stored_nil : stored [] = ∅.
Proof. done. Qed.

Lemma stored_cons (key text : jsstring) (texts : list (jsstring * jsstring))
    (result : gmap jsstring jsstring) :
  stored ((key, text) :: texts) ∪ result
  = stored texts ∪ setProperty result (camelCase key) text.
Proof.
  unfold stored, setProperty. simpl.
  case_bool_decide as Hproto; simpl; [done|].
  rewrite list_to_map_app. simpl.
  rewrite <- (assoc_L (∪)). f_equal.
  by rewrite insert_empty, <- insert_union_singleton_l.
Qed.

(** The loop of [normalizeMetadataKeys]: it throws when a conversion
    throws, and otherwise leaves what is stored of the converted pairs on
    top of what [result] held. *)
Lemma forOf_assignEntry (entries : list (jsstring * JSValue Number)) :
  forall result : gmap jsstring jsstring,
    forOf assignEntry entries result
    = match renderAll entries with
      | Some texts => Normal (stored texts ∪ result)
      | None => Throw
      end.
Proof.
  induction entries as [|[key value] entries IH]; intros result.
  - simpl. by rewrite stored_nil, (left_id_L ∅ (∪)).
  - simpl. unfold assignEntry at 1. simpl.
    destruct (ToString value) as [text|]; simpl; [|done].
    rewrite IH, <- camelCase_camelKey.
    destruct (renderAll entries) as [texts|]; simpl; [|done].
    by rewrite stored_cons.
Qed.

Lemma normalizeMetadataKeys_entries (entries : list (jsstring * JSValue Number)) :
  forOf assignEntry entries ∅
  = match renderAll entries with
    | Some texts => Normal (stored texts)
    | None => Throw
    end.
Proof.
  rewrite forOf_assignEntry.
  destruct (renderAll entries); [|done]. by rewrite (right_id_L ∅ (∪)).
Qed.

Lemma normalizeMetadataKeys_object props :
  normalizeMetadataKeys (JObj props)
  = match renderAll props with
    | Some texts => Normal (stored texts)
    | None => Throw
    end.
Proof. apply normalizeMetadataKeys_entries. Qed.

Lemma decodeMetadata_spec rawMetadata :
  decodeMetadata YAML_parse rawMetadata
  = Normal (blockMetadata (YAML_parse rawMetadata)).
Proof.
  unfold decodeMetadata, blockMetadata.
  destruct (YAML_parse rawMetadata) as [[| b | n | s | items | props]|];
    simpl; try done.
  - by destruct b.
  - by destruct (Number_truthy n).
  - by destruct s.
  - unfold normalizeMetadataKeys. simpl.
    rewrite normalizeMetadataKeys_entries.
    by destruct (renderAll _).
  - rewrite normalizeMetadataKeys_object. by destruct (renderAll _).
Qed.

(** A scalar is converted to its text, and pairs of scalars all
    convert. *)
Lemma ToString_scalar (v : JSValue Number) :
  isScalarOrNull v = true -> ToString v = Normal (scalarText v).
Proof. destruct v as [|[|]| | | |]; done. Qed.

Lemma renderAll_scalars (pairs : list (jsstring * JSValue Number)) :
  Forall (fun p => isScalarOrNull p.2 = true) pairs ->
  renderAll pairs = Some (List.map (fun p => (p.1, scalarText p.2)) pairs).
Proof.
  induction 1 as [|[key value] pairs Hv Hall IH]; [done|].
  simpl in *. by rewrite ToString_scalar, IH.
Qed.

(** One conversion that throws leaves nothing of the pairs. *)
Lemma renderAll_throw (pairs : list (jsstring * JSValue Number)) key value :
  (key, value) ∈ pairs -> ToString value = Throw -> renderAll pairs = None.
Proof.
  induction pairs as [|[k v] pairs IH]; [by intros Hin%elem_of_nil|].
  intros [Heq|Hin]%elem_of_cons Hthrow; simpl.
  - injection Heq as <- <-. by rewrite Hthrow.
  - destruct (ToString v); [|done]. by rewrite IH.
Qed.

Lemma stored_lookup (texts : list (jsstring * jsstring)) (k v : jsstring) :
  stored texts !! k = Some v ->
  k <> lit "__proto__"
  /\ exists key, (key, v) ∈ texts /\ k = camelCase key.
Proof.
  unfold stored. intros Hlook. apply elem_of_list_to_map_2 in Hlook.
  apply elem_of_rev, list_elem_of_In, filter_In in Hlook as [Hin Hkeep].
  apply negb_true_iff, bool_decide_eq_false in Hkeep. simpl in Hkeep.
  split; [done|].
  apply in_map_iff in Hin as ([key text] & Heq & Hin).
  injection Heq as <- <-. exists key. split; [by apply list_elem_of_In|done].
Qed.

Lemma stored_no_proto (texts : list (jsstring * jsstring)) :
  stored texts !! lit "__proto__" = None.
Proof.
  destruct (stored texts !! lit "__proto__") as [v|] eqn:E; [|done].
  by apply stored_lookup in E as [Hne _].
Qed.

(** Without a key that becomes [__proto__], what is stored of scalar
    pairs is the camel-cased mapping. *)
Lemma stored_camelCased (pairs : list (jsstring * JSValue Number)) :
  Forall (fun p => camelCase p.1 <> lit "__proto__") pairs ->
  stored (List.map (fun p => (p.1, scalarText p.2)) pairs) = camelCased pairs.
Proof.
  intros Hall. unfold stored, camelCased. do 2 f_equal.
  induction Hall as [|[key value] pairs Hkey Hall IH]; [done|].
  simpl in *. rewrite bool_decide_eq_false_2 by done. simpl. by rewrite IH.
Qed.

(** What [parseGenFile] returns once the lines are split at the last two
    markers. *)
Lemma parse_at_last_two_markers content before m1 block m2 after :
  split newline content = before ++ m1 :: block ++ m2 :: after ->
  isMarker m1 = true -> isMarker m2 = true ->
  noMarker block -> noMarker after ->
  parseGenFile YAML_parse content
  = Normal {| notation := trim (join [newline] before);
              metadata := blockMetadata
                (YAML_parse (join [newline] block)) |}.
Proof.
  intros Hsplit Hm1 Hm2 Hblock Hafter. unfold parseGenFile.
  rewrite Hsplit, scanMarkers_two by done.
  destruct (Z.eqb_spec (Z.of_nat (length before)) (-1)); [lia|].
  destruct (Z.eqb_spec (Z.of_nat (length before + 1 + length block)) (-1));
    [lia|].
  destruct (Z.geb_spec (Z.of_nat (length before))
                       (Z.of_nat (length before + 1 + length block))); [lia|].
  simpl orb. cbv iota.
  rewrite slice_prefix.
  replace (m1 :: block ++ m2 :: after) with (m1 :: block ++ (m2 :: after))
    by done.
  rewrite slice_middle, decodeMetadata_spec. done.
Qed.

Lemma parse_few_markers content :
  (length (markerLines content) < 2)%nat ->
  parseGenFile YAML_parse content
  = Normal {| notation := trim content; metadata := ∅ |}.
Proof.
  intros Hfew. unfold parseGenFile.
  destruct (few_markers _ Hfew)
    as [Hnone|(pre & m & post & Hsplit & Hm & Hpre & Hpost)].
  - by rewrite scanMarkers_zero.
  - by rewrite Hsplit, scanMarkers_one.
Qed.

Lemma split_pieces_no_sep sep s : Forall (fun p => sep ∉ p) (split sep s).
Proof.
  induction s as [|c t IH]; simpl.
  - constructor; [|constructor]. by intros Hin%elem_of_nil.
  - destruct (N.eqb_spec c sep) as [->|Hc].
    + constructor; [|done]. by intros Hin%elem_of_nil.
    + destruct (split sep t) as [|piece rest]; [|].
      * constructor; [|constructor].
        intros Hin%elem_of_cons. destruct Hin as [Hin|Hin%elem_of_nil]; done.
      * apply Forall_cons in IH as [Hpiece Hrest].
        constructor; [|done].
        intros Hin%elem_of_cons. destruct Hin as [Hin|Hin]; done.
Qed.

(** X20. When the text has at least two marker lines, its lines split
    at the last two of them, and for that split the notation is the lines
    before the second-from-the-end marker, rejoined with newline and
    trimmed; every line before that marker, earlier marker lines
    included, is a line of the untrimmed notation.  When the lines
    between the two markers decode to a mapping of scalars, the metadata
    is what a plain object stores of its pairs: keys in camel case, values
    as text, the later of two pairs with one key, and nothing for a key
    that becomes [__proto__]. *)
Theorem parse_at_trailing_block content :
  (2 <= length (markerLines content))%nat ->
  (exists before m1 block m2 after,
     atLastTwoMarkers (split newline content) before m1 block m2 after)
  /\ forall before m1 block m2 after,
       atLastTwoMarkers (split newline content) before m1 block m2 after ->
       (exists result,
          parseGenFile YAML_parse content = Normal result
          /\ notation result = trim (join [newline] before)
          /\ forall pairs,
               YAML_parse (join [newline] block) = Normal (JObj pairs) ->
               Forall (fun p => isScalarOrNull p.2 = true) pairs ->
               metadata result
               = stored (List.map (fun p => (p.1, scalarText p.2)) pairs))
       /\ (forall line, line ∈ before ->
             line ∈ split newline (join [newline] before)).
Proof.
  intros Hmany. split.
  - destruct (two_markers _ Hmany)
      as (before & m1 & block & m2 & after & Hsplit).
    by exists before, m1, block, m2, after.
  - intros before m1 block m2 after (Hsplit & Hm1 & Hm2 & Hb & Ha). split.
    + eexists. split.
      { by apply (parse_at_last_two_markers content before m1 block m2 after). }
      split; [done|]. intros pairs Hdecode Hscalar. simpl.
      unfold blockMetadata. rewrite Hdecode. simpl.
      by rewrite renderAll_scalars.
    + intros line Hline.
      rewrite split_join; [done| |].
      * intros ->. by apply elem_of_nil in Hline.
      * pose proof (split_pieces_no_sep newline content) as Hall.
        rewrite Hsplit in Hall. by apply Forall_app in Hall as [Hall _].
Qed.

(** C5. With fewer than two marker lines the metadata is the empty
    mapping and the notation is the whole input, trimmed. *)
Theorem parse_without_block content :
  (length (markerLines content) < 2)%nat ->
  parseGenFile YAML_parse content
  = Normal {| notation := trim content; metadata := ∅ |}.
Proof. apply parse_few_markers. Qed.

Lemma parseGenFile_total content :
  exists result, parseGenFile YAML_parse content = Normal result.
Proof.
  destruct (le_lt_dec 2 (length (markerLines content))) as [Hmany|Hfew].
  - destruct (two_markers _ Hmany)
      as (before & m1 & block & m2 & after & Hsplit & Hm1 & Hm2 & Hb & Ha).
    eexists. by apply (parse_at_last_two_markers content before m1 block m2 after).
  - eexists. by apply parse_few_markers.
Qed.

(** C7. The parser returns normally on every input, and as a function it
    returns one result per input.  When the decoder throws on the text
    between the last two markers, the metadata is the empty mapping and the
    notation is still the lines before the first of the two, trimmed. *)
Theorem parse_total_and_degrades content :
  (exists result, parseGenFile YAML_parse content = Normal result)
  /\ (forall before m1 block m2 after,
        atLastTwoMarkers (split newline content) before m1 block m2 after ->
        YAML_parse (join [newline] block) = Throw ->
        parseGenFile YAML_parse content
        = Normal {| notation := trim (join [newline] before);
                    metadata := ∅ |}).
Proof.
  split; [apply parseGenFile_total|].
  intros before m1 block m2 after (Hsplit & Hm1 & Hm2 & Hb & Ha) Hthrow.
  rewrite (parse_at_last_two_markers content before m1 block m2 after)
    by done.
  by rewrite Hthrow.
Qed.

(** X21. [normalizeMetadataKeys] on a decoded mapping.  The rewrite of
    a key is the conversion to camel case: every pair of a hyphen and a
    lower-case letter replaced by the upper-case letter, one after the
    other, until none is left.  On a mapping of scalars the function
    returns what a plain object stores of the pairs: each value found is
    the text of an entry whose key converts to that key, every entry's
    converted key is present unless it is [__proto__], and [__proto__]
    never is.  When a value is a mapping with an own [toString] entry the
    function throws. *)
Theorem normalizeMetadataKeys_exact (props : list (jsstring * JSValue Number)) :
  (forall key, camelKey key = camelCase key)
  /\ (Forall (fun p => isScalarOrNull p.2 = true) props ->
      exists result : gmap jsstring jsstring,
        normalizeMetadataKeys (JObj props) = Normal result
        /\ result = stored (List.map (fun p => (p.1, scalarText p.2)) props)
        /\ result !! lit "__proto__" = None
        /\ (forall k v, result !! k = Some v ->
              exists key value,
                (key, value) ∈ props /\ k = camelCase key
                /\ v = scalarText value)
        /\ (forall key value, (key, value) ∈ props ->
              camelCase key <> lit "__proto__" ->
              is_Some (result !! camelCase key)))
  /\ (forall key inner x,
        (key, JObj inner) ∈ props -> (lit "toString", x) ∈ inner ->
        normalizeMetadataKeys (JObj props) = Throw).
Proof.
  split; [intros key; symmetry; apply camelCase_camelKey|]. split.
  - intros Hscalar. eexists. split.
    { by rewrite normalizeMetadataKeys_object, renderAll_scalars. }
    split; [done|]. split; [apply stored_no_proto|]. split.
    + intros k v Hlook. apply stored_lookup in Hlook as (_ & key & Hin & ->).
      apply list_elem_of_In, in_map_iff in Hin as ([key' value] & Heq & Hin).
      injection Heq as -> <-. exists key, value.
      split; [by apply list_elem_of_In|done].
    + intros key value Hin Hproto. apply not_eq_None_Some. intros Hnone.
      unfold stored in Hnone. apply not_elem_of_list_to_map in Hnone.
      apply Hnone. apply list_elem_of_fmap.
      exists (camelCase key, scalarText value). split; [done|].
      apply elem_of_rev, list_elem_of_In, filter_In. split.
      * apply in_map_iff. exists (key, scalarText value). split; [done|].
        apply in_map_iff. exists (key, value).
        split; [done|by apply list_elem_of_In].
      * simpl. by rewrite bool_decide_eq_false_2.
  - intros key inner x Hin Hown.
    rewrite normalizeMetadataKeys_object.
    rewrite (renderAll_throw props key (JObj inner) Hin); [done|].
    simpl. replace (existsb _ inner) with true; [done|].
    symmetry. apply existsb_exists. exists (lit "toString", x).
    split; [by apply list_elem_of_In|]. by apply bool_decide_eq_true.
Qed.

Lemma split_serialize body encoded :
  split newline (serialize body encoded)
  = split newline body ++ lit "---"
    :: split newline encoded ++ lit "---" :: [[]].
Proof.
  unfold serialize, separator.
  assert (Hmarker : split newline (lit "---") = [lit "---"]) by done.
  revert Hmarker. generalize (lit "---"). intros marker Hmarker.
  replace (body ++ ([newline] ++ marker ++ [newline])
                ++ encoded ++ [newline] ++ marker ++ [newline])
    with (body ++ newline :: (marker ++ newline ::
            (encoded ++ newline :: (marker ++ newline :: []))))
    by (by rewrite <- !app_assoc).
  rewrite !split_app_sep, Hmarker. done.
Qed.

(** C3, amended.  A document serialized from a body and an encoded block
    is parsed back to the trimmed body and to the camel-cased mapping of
    texts, provided the block decodes to the mapping, the values of the
    mapping are scalars, none of the block's lines is a marker line, and
    no key of the mapping becomes [__proto__] in camel case. *)
Theorem roundtrip_without_marker_lines body encoded
    (M : list (jsstring * JSValue Number)) :
  YAML_parse encoded = Normal (JObj M) ->
  Forall (fun p => isScalarOrNull p.2 = true) M ->
  Forall (fun p => camelCase p.1 <> lit "__proto__") M ->
  noMarker (split newline encoded) ->
  parseGenFile YAML_parse (serialize body encoded)
  = Normal {| notation := trim body; metadata := camelCased M |}.
Proof.
  intros Hdecode Hscalar Hproto Hclean.
  rewrite (parse_at_last_two_markers _ (split newline body) (lit "---")
             (split newline encoded) (lit "---") [[]]);
    try done.
  - rewrite !join_split. unfold blockMetadata. rewrite Hdecode. simpl.
    by rewrite renderAll_scalars, stored_camelCased.
  - apply split_serialize.
  - by constructor.
Qed.

End ParserProperties.

(** ** Code-unit order, sorting and sets *)

Section OrderFacts.
Import JS Spec.

Lemma ltb_irrefl a : ltb a a = false.
Proof.
  induction a as [|x a IH]; [done|]. simpl.
  by rewrite N.ltb_irrefl, N.eqb_refl, IH.
Qed.

Lemma ltb_trans a : forall b c,
  ltb a b = true -> ltb b c = true -> ltb a c = true.
Proof.
  induction a as [|x a IH]; intros [|y b] [|z c]; simpl; try done.
  rewrite !orb_true_iff, !andb_true_iff, !N.ltb_lt, !N.eqb_eq.
  intros [Hxy|[-> Hab]] [Hyz|[-> Hbc]].
  - left. lia.
  - by left.
  - by left.
  - right. split; [done|]. by apply (IH b c).
Qed.

Lemma ltb_total a : forall b,
  ltb a b = false -> a <> b -> ltb b a = true.
Proof.
  induction a as [|x a IH]; intros [|y b]; simpl; try done.
  rewrite orb_false_iff, andb_false_iff, orb_true_iff, andb_true_iff.
  rewrite !N.ltb_ge, !N.ltb_lt, !N.eqb_neq, N.eqb_eq.
  intros [Hge Hrest] Hne.
  destruct (N.eq_dec x y) as [->|Hxy].
  - right. split; [done|]. destruct Hrest as [Hrest|Hrest]; [done|].
    apply IH; [done|]. intros ->. done.
  - left. lia.
Qed.

Lemma insert_sorted_elem x y l : x ∈ insert_sorted y l <-> x = y \/ x ∈ l.
Proof.
  induction l as [|z l IH]; simpl.
  - rewrite list_elem_of_singleton. split; [by left|].
    intros [?|Hin%elem_of_nil]; done.
  - destruct (ltb z y).
    + rewrite !elem_of_cons, IH. tauto.
    + rewrite !elem_of_cons. tauto.
Qed.

Lemma insert_sorted_sorted y l :
  StronglySorted lt_string l -> y ∉ l ->
  StronglySorted lt_string (insert_sorted y l).
Proof.
  induction 1 as [|z l Hsorted IH Hall]; intros Hnotin; simpl.
  - constructor; constructor.
  - apply not_elem_of_cons in Hnotin as [Hne Hnotin].
    destruct (ltb z y) eqn:E.
    + constructor; [by apply IH|].
      apply List.Forall_forall. intros w Hw%list_elem_of_In.
      apply insert_sorted_elem in Hw as [->|Hw]; [done|].
      rewrite List.Forall_forall in Hall. by apply Hall, list_elem_of_In.
    + assert (Hyz : lt_string y z) by (by apply ltb_total).
      constructor; [by constructor|].
      constructor; [done|].
      eapply List.Forall_impl; [|exact Hall].
      intros w Hw. by apply (ltb_trans y z w).
Qed.

Lemma sort_elem x l : x ∈ JS.sort l <-> x ∈ l.
Proof.
  unfold JS.sort. induction l as [|y l IH]; simpl; [done|].
  rewrite insert_sorted_elem, elem_of_cons, IH. done.
Qed.

Lemma sort_sorted l : NoDup l -> StronglySorted lt_string (JS.sort l).
Proof.
  unfold JS.sort. induction 1 as [|y l Hnotin Hnodup IH]; simpl.
  - constructor.
  - apply insert_sorted_sorted; [done|].
    intros Hin. apply Hnotin. by apply (sort_elem y l).
Qed.

Lemma sorted_increasing l : StronglySorted lt_string l -> increasing l.
Proof.
  induction 1 as [|z l Hsorted IH Hall]; intros i j a b Hij Hi Hj.
  - done.
  - destruct j as [|j]; [lia|]. simpl in Hj.
    destruct i as [|i].
    + injection Hi as <-.
      rewrite List.Forall_forall in Hall.
      apply Hall, list_elem_of_In, list_elem_of_lookup. eauto.
    + simpl in Hi. apply (IH i j); [lia|done|done].
Qed.

Lemma sorted_NoDup l : StronglySorted lt_string l -> NoDup l.
Proof.
  induction 1 as [|z l Hsorted IH Hall]; constructor; [|done].
  intros Hin. rewrite List.Forall_forall in Hall.
  apply list_elem_of_In, Hall in Hin. unfold lt_string in Hin.
  by rewrite ltb_irrefl in Hin.
Qed.

Lemma set_add_elem x y s : x ∈ set_add y s <-> x = y \/ x ∈ s.
Proof.
  unfold set_add. case_bool_decide as Hin.
  - split; [by right|]. intros [->|?]; done.
  - rewrite elem_of_app, list_elem_of_singleton. tauto.
Qed.

Lemma set_add_NoDup y s : NoDup s -> NoDup (set_add y s).
Proof.
  intros Hnodup. unfold set_add. case_bool_decide as Hin; [done|].
  apply NoDup_app. split; [done|]. split.
  - intros x Hx Hy%list_elem_of_singleton. by subst.
  - apply NoDup_singleton.
Qed.

End OrderFacts.

(** ** Filtering *)

Section FilterProperties.
Import JS Spec ScoreLoader.
Context {Number : Type} `{NumberOps Number}.
Variable YAML_parse : jsstring -> Completion (JSValue Number).
Variable toLowerCase : jsstring -> jsstring.
Variable scoresDir : list Dirent.

Lemma criterion_false c violated :
  criterion c violated = false <-> whenSet c (fun w => violated w = false).
Proof.
  unfold criterion, whenSet. destruct c as [w|].
  - split.
    + intros Hc wanted [= <-] Hne. destruct w; [done|]. done.
    + intros Hset. destruct w as [|x w]; [done|]. simpl.
      by apply Hset.
  - split; [|done]. by intros _ wanted.
Qed.

Lemma whenSet_iff c (P Q : jsstring -> Prop) :
  (forall w, P w <-> Q w) -> whenSet c P <-> whenSet c Q.
Proof.
  intros HPQ. unfold whenSet. split; intros Hset w Hc Hne.
  - by apply HPQ, Hset.
  - by apply HPQ, Hset.
Qed.

Lemma contains_test field wanted :
  negb (truthy_bool (includesLower toLowerCase field (toLowerCase wanted)))
  = false
  <-> exists t, field = Some t /\ containsCI toLowerCase t wanted.
Proof.
  unfold includesLower, containsCI. destruct field as [t|]; simpl.
  - rewrite negb_false_iff, includes_spec. split.
    + intros Hinc. eauto.
    + by intros (t' & [= <-] & Hinc).
  - split; [done|]. by intros (t & Ht & _).
Qed.

Lemma category_test cat full wanted :
  negb (eqb_string (toLowerCase cat) (toLowerCase wanted))
  && negb (eqb_string (toLowerCase full) (toLowerCase wanted)) = false
  <-> equalCI toLowerCase cat wanted \/ equalCI toLowerCase full wanted.
Proof.
  unfold eqb_string, equalCI.
  rewrite andb_false_iff, !negb_false_iff, !bool_decide_eq_true. done.
Qed.

Lemma differs_test field wanted :
  differs field wanted = false <-> field = Some wanted.
Proof.
  unfold differs. by rewrite negb_false_iff, bool_decide_eq_true.
Qed.

(** The callback keeps a record exactly when the record satisfies every
    set criterion. *)
Lemma keepScore_Matches filter score :
  keepScore toLowerCase filter score = true
  <-> Matches toLowerCase filter score.
Proof.
  unfold keepScore, Matches.
  rewrite <- (whenSet_iff _ _ _ (contains_test (title score))).
  rewrite <- (whenSet_iff _ _ _ (contains_test (composer score))).
  rewrite <- (whenSet_iff _ _ _
    (category_test (category score) (fullCategory score))).
  rewrite <- (whenSet_iff _ _ _ (differs_test (timeSignature score))).
  rewrite <- (whenSet_iff _ _ _ (differs_test (tempo score))).
  rewrite <- (whenSet_iff _ _ _ (differs_test (keySignature score))).
  rewrite <- !criterion_false.
  repeat match goal with
  | |- context [if criterion ?c ?v then _ else _] =>
      destruct (criterion c v)
  end; intuition congruence.
Qed.

(** C2. For every catalogue and every filter, [filterScores] returns the
    records of the catalogue, in catalogue order, that satisfy the
    conjunction of the set criteria: title and composer by
    case-insensitive containment (a record without the field fails),
    category by case-insensitive equality with [category] or
    [fullCategory], and time signature, tempo and key signature by exact
    equality.  A criterion counts as set when it is given and is not the
    empty string, which is the test the code makes. *)
Theorem filterScores_conjunction filter scoresCache scores cache' :
  loadAllScores YAML_parse scoresDir scoresCache = Normal (scores, cache') ->
  exists keep : Score -> bool,
    (forall score, keep score = true <-> Matches toLowerCase filter score)
    /\ filterScores YAML_parse toLowerCase scoresDir (Some filter) scoresCache
       = Normal (List.filter keep scores, cache').
Proof.
  intros Hload. exists (keepScore toLowerCase filter).
  split; [apply keepScore_Matches|].
  unfold filterScores. by rewrite Hload.
Qed.

Lemma criterion_dropEmpty c violated :
  criterion (dropEmpty c) violated = criterion c violated.
Proof. by destruct c as [[|x w]|]. Qed.

Lemma keepScore_clearEmpty filter score :
  keepScore toLowerCase (clearEmpty filter) score
  = keepScore toLowerCase filter score.
Proof.
  unfold keepScore, clearEmpty. simpl.
  by rewrite !criterion_dropEmpty.
Qed.

Lemma criterion_unset c violated :
  truthy_opt c = false -> criterion c violated = false.
Proof. by destruct c as [[|x w]|]. Qed.

Lemma criterion_ext c (v1 v2 : jsstring -> bool) :
  (truthy_opt c = true -> forall w, v1 w = v2 w) ->
  criterion c v1 = criterion c v2.
Proof.
  destruct c as [[|x w]|]; simpl; try done.
  intros Hext. by apply Hext.
Qed.

Lemma filter_all {A} (l : list A) (keep : A -> bool) :
  (forall x, keep x = true) -> List.filter keep l = l.
Proof.
  intros Hall. induction l as [|x l IH]; [done|].
  simpl. by rewrite Hall, IH.
Qed.

(** C10. A criterion given as the empty string imposes no constraint:
    the query answers as if that criterion were not given, the fields it
    would look at do not influence which records are kept (so records
    lacking the field are kept when the other criteria allow), and a
    filter whose criteria are all empty or absent returns the whole
    catalogue in order. *)
Theorem empty_criterion_unconstrained filter scoresCache :
  filterScores YAML_parse toLowerCase scoresDir (Some filter) scoresCache
  = filterScores YAML_parse toLowerCase scoresDir
      (Some (clearEmpty filter)) scoresCache
  /\ (forall a b, agreeWhereSet filter a b ->
        keepScore toLowerCase filter a = keepScore toLowerCase filter b)
  /\ (forall scores cache',
        loadAllScores YAML_parse scoresDir scoresCache
          = Normal (scores, cache') ->
        clearEmpty filter
          = {| Filter.title := None; Filter.composer := None;
               Filter.category := None; Filter.timeSignature := None;
               Filter.tempo := None; Filter.keySignature := None |} ->
        filterScores YAML_parse toLowerCase scoresDir (Some filter) scoresCache
        = Normal (scores, cache')).
Proof.
  split; [|split].
  - unfold filterScores.
    destruct (loadAllScores YAML_parse scoresDir scoresCache) as [loaded|];
      [|done].
    simpl. f_equal. f_equal. apply List.filter_ext.
    intros score. symmetry. apply keepScore_clearEmpty.
  - intros a b (Ht & Hc & Hcat & Hts & Htp & Hks). unfold keepScore.
    rewrite (criterion_ext (Filter.title filter) _
      (fun wanted => negb (truthy_bool
         (includesLower toLowerCase (title b) (toLowerCase wanted)))))
      by (intros Hset w; by rewrite (Ht Hset)).
    rewrite (criterion_ext (Filter.composer filter) _
      (fun wanted => negb (truthy_bool
         (includesLower toLowerCase (composer b) (toLowerCase wanted)))))
      by (intros Hset w; by rewrite (Hc Hset)).
    rewrite (criterion_ext (Filter.category filter) _
      (fun wanted =>
         let filterCat := toLowerCase wanted in
         negb (eqb_string (toLowerCase (category b)) filterCat)
         && negb (eqb_string (toLowerCase (fullCategory b)) filterCat)))
      by (intros Hset w; destruct (Hcat Hset) as [-> ->]; done).
    rewrite (criterion_ext (Filter.timeSignature filter) _
      (differs (timeSignature b)))
      by (intros Hset w; by rewrite (Hts Hset)).
    rewrite (criterion_ext (Filter.tempo filter) _ (differs (tempo b)))
      by (intros Hset w; by rewrite (Htp Hset)).
    rewrite (criterion_ext (Filter.keySignature filter) _
      (differs (keySignature b)))
      by (intros Hset w; by rewrite (Hks Hset)).
    done.
  - intros scores cache' Hload Hempty. unfold filterScores.
    rewrite Hload. simpl. f_equal. f_equal.
    apply filter_all. intros score.
    rewrite <- keepScore_clearEmpty, Hempty. done.
Qed.

End FilterProperties.

(** ** Scanning the scores directory *)

Section PathFacts.
Import JS Spec ScoreLoader.

(** Induction over a directory tree, with the property available for
    every entry of a directory. *)
Lemma Dirent_tree_ind (P : Dirent -> Prop)
    (Hfile : forall name text, P (FileEntry name text))
    (Hdir : forall name entries, Forall P entries -> P (DirEntry name entries)) :
  forall entry, P entry.
Proof.
  fix IH 1. intros [name text|name entries].
  - apply Hfile.
  - apply Hdir. induction entries as [|e l IHl].
    + apply List.Forall_nil.
    + apply List.Forall_cons; [apply IH|exact IHl].
Qed.

Lemma validName_spec name :
  validName name = true <-> name <> [] /\ slash ∉ name.
Proof.
  unfold validName. rewrite andb_true_iff, negb_true_iff, bool_decide_eq_false.
  destruct name as [|c name]; simpl; [intuition congruence|].
  intuition congruence.
Qed.

Lemma join_truthy segs :
  segs <> [] -> Forall (fun n => validName n = true) segs ->
  truthy (join [slash] segs) = true.
Proof.
  destruct segs as [|n segs]; [done|]. intros _ Hall.
  apply Forall_cons in Hall as [Hn _]. apply validName_spec in Hn as [Hn _].
  destruct n as [|c n]; [done|]. by destruct segs.
Qed.

(** The relative path of an entry is the slash-joined chain of names that
    leads to it. *)
Lemma relativePathOf_join segs name :
  Forall (fun n => validName n = true) segs ->
  relativePathOf (join [slash] segs) name = join [slash] (segs ++ [name]).
Proof.
  intros Hall. unfold relativePathOf.
  destruct segs as [|n segs]; [done|].
  rewrite join_truthy by done.
  by rewrite join_snoc.
Qed.

Lemma split_path parts :
  parts <> [] -> Forall (fun n => validName n = true) parts ->
  split slash (join [slash] parts) = parts.
Proof.
  intros Hne Hall. apply split_join; [done|].
  eapply Forall_impl; [exact Hall|].
  intros n Hn. by apply validName_spec in Hn as [_ Hn].
Qed.

Lemma scanEntries_spec (visit : Dirent -> Completion (list Score)) entries :
  Forall (fun e => exists found, visit e = Normal found) entries ->
  forall scores, exists result,
    scanEntries visit entries scores = Normal result
    /\ forall s, s ∈ result ->
         s ∈ scores
         \/ exists e found, e ∈ entries /\ visit e = Normal found /\ s ∈ found.
Proof.
  induction 1 as [|e entries [found Hfound] Hall IH]; intros scores.
  - exists scores. split; [done|]. by left.
  - destruct (IH (scores ++ found)) as (result & Hscan & Hres).
    exists result. simpl. rewrite Hfound. split; [exact Hscan|].
    intros s Hs. destruct (Hres s Hs) as [Hin|(e' & f' & He' & Hv & Hin)].
    + apply elem_of_app in Hin as [Hin|Hin]; [by left|].
      right. exists e, found. split; [left|done].
    + right. exists e', f'. split; [by right|done].
Qed.

Lemma located_single entries e dirs name text :
  e ∈ entries -> located [e] dirs name text ->
  located entries dirs name text.
Proof.
  intros He Hloc. inversion Hloc as [? ? ? Hin|? ? ? ? ? ? Hin Hsub]; subst.
  - apply list_elem_of_singleton in Hin as <-. by constructor.
  - apply list_elem_of_singleton in Hin as <-.
    by apply (located_below entries dir sub).
Qed.

End PathFacts.

Section ScanDirectoryProperties.
Import JS Spec ScoreLoader.
Context {Number : Type} `{NumberOps Number}.
Variable YAML_parse : jsstring -> Completion (JSValue Number).

(** What the loop body contributes for one entry reached through the
    directories [segs]. *)
Lemma scanEntry_records entry :
  validEntry entry = true ->
  forall segs, Forall (fun n => validName n = true) segs ->
  exists found,
    scanEntry YAML_parse (join [slash] segs) entry = Normal found
    /\ forall s, s ∈ found ->
         exists dirs name text,
           located [entry] dirs name text
           /\ Forall (fun n => validName n = true) (dirs ++ [name])
           /\ path s = join [slash] (segs ++ dirs ++ [name])
           /\ filename s = name /\ content s = text
           /\ category s = nth 0 (segs ++ dirs ++ [name]) []
           /\ fullCategory s = join [slash] (segs ++ dirs).
Proof.
  induction entry as [name text|name entries IH] using Dirent_tree_ind;
    intros Hvalid segs Hsegs.
  - simpl in Hvalid |- *. rewrite relativePathOf_join by done.
    destruct (endsWith name (lit ".gen")).
    + destruct (parseGenFile_total YAML_parse text) as [parsed Hparsed].
      rewrite Hparsed. eexists. split; [done|].
      intros s Hs%list_elem_of_singleton. subst s.
      exists [], name, text.
      assert (Hparts : Forall (fun n => validName n = true) (segs ++ [name])).
      { apply Forall_app. split; [done|]. by constructor. }
      unfold makeScore. simpl.
      rewrite split_path by (done || by destruct segs).
      split; [constructor; left|].
      split; [by constructor|].
      split; [done|]. split; [done|]. split; [done|]. split; [done|].
      by rewrite slice_drop_last, app_nil_r.
    + eexists. split; [done|]. by intros s Hs%elem_of_nil.
  - simpl in Hvalid. apply andb_true_iff in Hvalid as [Hname Hentries].
    rewrite forallb_forall in Hentries.
    assert (Hsegs' : Forall (fun n => validName n = true) (segs ++ [name])).
    { apply Forall_app. split; [done|]. by constructor. }
    assert (Hvisit : Forall (fun e => exists found,
              scanEntry YAML_parse (join [slash] (segs ++ [name])) e
              = Normal found) entries).
    { rewrite List.Forall_forall in IH. apply List.Forall_forall.
      intros e He.
      destruct (IH e He (Hentries e He) _ Hsegs') as (found & Hfound & _).
      eauto. }
    destruct (scanEntries_spec _ _ Hvisit []) as (result & Hscan & Hres).
    exists result. simpl. rewrite relativePathOf_join by done.
    split; [exact Hscan|].
    intros s Hs.
    destruct (Hres s Hs) as [Hin%elem_of_nil|(e & found & He & Hv & Hin)];
      [done|].
    rewrite List.Forall_forall in IH. apply list_elem_of_In in He.
    destruct (IH e He (Hentries e He) _ Hsegs') as (found' & Hfound' & Hrec).
    rewrite Hv in Hfound'. injection Hfound' as <-.
    destruct (Hrec s Hin)
      as (dirs & fname & text & Hloc & Hnames & Hpath & Hfn & Hct & Hcat & Hfull).
    exists (name :: dirs), fname, text.
    split.
    { apply (located_below _ name entries); [left|].
      apply (located_single entries e); [by apply list_elem_of_In|done]. }
    split; [by constructor|].
    rewrite <- !app_assoc in Hpath, Hcat, Hfull. simpl in Hpath, Hcat, Hfull.
    done.
Qed.

Lemma scanDirectory_records entries :
  forallb validEntry entries = true ->
  exists scores,
    scanDirectory YAML_parse entries [] = Normal scores
    /\ forall s, s ∈ scores ->
         exists dirs name text,
           located entries dirs name text
           /\ Forall (fun n => validName n = true) (dirs ++ [name])
           /\ path s = join [slash] (dirs ++ [name])
           /\ filename s = name /\ content s = text
           /\ category s = nth 0 (dirs ++ [name]) []
           /\ fullCategory s = join [slash] dirs.
Proof.
  intros Hvalid. rewrite forallb_forall in Hvalid.
  assert (Hvisit : Forall (fun e => exists found,
            scanEntry YAML_parse [] e = Normal found) entries).
  { apply List.Forall_forall. intros e He.
    destruct (scanEntry_records e (Hvalid e He) [] (List.Forall_nil _))
      as (found & Hfound & _).
    eauto. }
  destruct (scanEntries_spec _ _ Hvisit []) as (result & Hscan & Hres).
  exists result. split; [exact Hscan|].
  intros s Hs.
  destruct (Hres s Hs) as [Hin%elem_of_nil|(e & found & He & Hv & Hin)];
    [done|].
  destruct (scanEntry_records e (Hvalid e (proj1 (list_elem_of_In _ _) He))
              [] (List.Forall_nil _)) as (found' & Hfound' & Hrec).
  simpl in Hfound'. rewrite Hv in Hfound'. injection Hfound' as <-.
  destruct (Hrec s Hin)
    as (dirs & fname & text & Hloc & Hnames & Hpath & Hfn & Hct & Hcat & Hfull).
  exists dirs, fname, text.
  split; [by apply (located_single entries e)|]. done.
Qed.

(** The scan and the load end normally on every directory tree. *)
Lemma scanEntry_total entry :
  forall basePath, exists found,
    scanEntry YAML_parse basePath entry = Normal found.
Proof.
  induction entry as [name text|name entries IH] using Dirent_tree_ind;
    intros basePath; simpl.
  - destruct (endsWith name (lit ".gen")); [|eauto].
    destruct (parseGenFile_total YAML_parse text) as [parsed Hparsed].
    rewrite Hparsed. eauto.
  - destruct (scanEntries_spec
                (scanEntry YAML_parse (relativePathOf basePath name))
                entries) with (scores := @nil Score) as (result & Hscan & _).
    + eapply Forall_impl; [exact IH|]. intros e He. apply He.
    + eauto.
Qed.

Lemma loadAllScores_total scoresDir scoresCache :
  exists scores cache',
    loadAllScores YAML_parse scoresDir scoresCache = Normal (scores, cache').
Proof.
  destruct scoresCache as [cached|]; simpl; [eauto|].
  destruct (scanEntries_spec (scanEntry YAML_parse []) scoresDir)
    with (scores := @nil Score) as (result & Hscan & _).
  - apply List.Forall_forall. intros e _. apply scanEntry_total.
  - unfold scanDirectory. rewrite Hscan. eauto.
Qed.

End ScanDirectoryProperties.

(** ** Records, categories and composers *)

Section CatalogueProperties.
Import JS Spec ScoreLoader.
Context {Number : Type} `{NumberOps Number}.
Variable YAML_parse : jsstring -> Completion (JSValue Number).
Variable scoresDir : list Dirent.

(** C4, amended.  Every record built by the scan belongs to a file of the
    tree; the segments of its path are the directories leading to the
    file followed by the file name, [category] is the first segment and
    [fullCategory] is the segments without the file name, joined with
    slashes.  For a file directly in the scores directory [category] is
    the file name and [fullCategory] is the empty string; the two are
    equal exactly for files directly inside a first-level directory. *)
Theorem record_category_fields :
  forallb validEntry scoresDir = true ->
  exists scores,
    scanDirectory YAML_parse scoresDir [] = Normal scores
    /\ forall s, s ∈ scores ->
         exists dirs name text,
           located scoresDir dirs name text
           /\ split slash (path s) = dirs ++ [name]
           /\ filename s = name
           /\ category s = nth 0 (split slash (path s)) []
           /\ fullCategory s = join [slash] dirs
           /\ (dirs = [] ->
                 category s = name /\ fullCategory s = []
                 /\ fullCategory s <> category s)
           /\ (fullCategory s = category s <-> exists d, dirs = [d]).
Proof.
  intros Hvalid.
  destruct (scanDirectory_records YAML_parse scoresDir Hvalid)
    as (scores & Hscan & Hrec).
  exists scores. split; [exact Hscan|].
  intros s Hs.
  destruct (Hrec s Hs)
    as (dirs & name & text & Hloc & Hnames & Hpath & Hfn & Hct & Hcat & Hfull).
  exists dirs, name, text.
  assert (Hsplit : split slash (path s) = dirs ++ [name]).
  { rewrite Hpath. apply split_path; [by destruct dirs|done]. }
  assert (Hname : name <> []).
  { apply Forall_app in Hnames as [_ Hn].
    apply Forall_cons in Hn as [Hn _]. by apply validName_spec in Hn as [? _]. }
  rewrite Hsplit.
  split; [done|]. split; [done|]. split; [done|]. split; [done|].
  split; [done|]. split.
  - intros ->. rewrite Hfull, Hcat. simpl.
    split; [done|]. split; [done|]. congruence.
  - split.
    + intros Heq. rewrite Hfull, Hcat in Heq.
      destruct dirs as [|d [|d2 dirs]].
      * simpl in Heq. congruence.
      * eauto.
      * exfalso. rewrite join_cons in Heq. simpl in Heq.
        apply (f_equal length) in Heq. rewrite length_app in Heq.
        simpl in Heq. lia.
    + intros [d ->]. by rewrite Hfull, Hcat.
Qed.

(** A collecting loop: what holds of the set it builds. *)
Lemma fold_collect {A} (step : list jsstring -> A -> list jsstring)
    (Q : jsstring -> A -> Prop) :
  (forall acc a, NoDup acc -> NoDup (step acc a)) ->
  (forall acc a x, x ∈ step acc a <-> x ∈ acc \/ Q x a) ->
  forall l acc, NoDup acc ->
    NoDup (fold_left step l acc)
    /\ forall x, x ∈ fold_left step l acc <-> x ∈ acc \/ exists a, a ∈ l /\ Q x a.
Proof.
  intros Hnodup Helem. induction l as [|a l IH]; intros acc Hacc; simpl.
  - split; [done|]. intros x. split; [by left|].
    intros [?|(a & Ha%elem_of_nil & _)]; done.
  - destruct (IH (step acc a) (Hnodup _ _ Hacc)) as [Hnd Hin].
    split; [done|]. intros x. rewrite Hin, Helem. split.
    + intros [[?|HQ]|(b & Hb & HQ)].
      * by left.
      * right. exists a. split; [left|done].
      * right. exists b. split; [by right|done].
    + intros [?|(b & Hb & HQ)]; [by left; left|].
      apply elem_of_cons in Hb as [->|Hb].
      * left. by right.
      * right. eauto.
Qed.

Lemma collectCategories_spec scores :
  NoDup (collectCategories scores)
  /\ forall x, x ∈ collectCategories scores <->
       exists s, s ∈ scores
         /\ (x = category s
             \/ (x = fullCategory s /\ fullCategory s <> []
                 /\ fullCategory s <> category s)).
Proof.
  unfold collectCategories.
  match goal with |- context [fold_left ?f scores []] => set (step := f) end.
  destruct (fold_collect step
    (fun x s => x = category s
       \/ (x = fullCategory s /\ fullCategory s <> []
           /\ fullCategory s <> category s))) with (l := scores) (acc := @nil jsstring)
    as [Hnd Hin].
  - intros acc s Hacc. unfold step.
    destruct (truthy (fullCategory s) && _); by repeat apply set_add_NoDup.
  - intros acc s x. unfold step, eqb_string.
    destruct (truthy (fullCategory s)) eqn:Et; simpl.
    + case_bool_decide as Heq; simpl.
      * rewrite set_add_elem. split; [tauto|].
        intros [?|[?|(_ & _ & Hne)]]; tauto.
      * rewrite !set_add_elem. split; [|tauto].
        intros [->|[->|?]]; [|tauto|tauto].
        right. right. split; [done|]. split; [|done].
        by destruct (fullCategory s).
    + rewrite set_add_elem. split; [tauto|].
      intros [?|[?|(_ & Hne & _)]]; [tauto|tauto|].
      by destruct (fullCategory s).
  - constructor.
  - split; [done|]. intros x. rewrite Hin. split.
    + intros [Hx%elem_of_nil|?]; done.
    + by right.
Qed.

Lemma collectComposers_spec scores :
  NoDup (collectComposers scores)
  /\ forall x, x ∈ collectComposers scores <->
       x <> [] /\ exists s, s ∈ scores /\ composer s = Some x.
Proof.
  unfold collectComposers.
  match goal with |- context [fold_left ?f scores []] => set (step := f) end.
  destruct (fold_collect step
    (fun x s => x <> [] /\ composer s = Some x))
    with (l := scores) (acc := @nil jsstring) as [Hnd Hin].
  - intros acc s Hacc. unfold step.
    destruct (composer s) as [[|c w]|]; simpl; try done.
    by apply set_add_NoDup.
  - intros acc s x. unfold step.
    destruct (composer s) as [[|c w]|]; simpl.
    + split; [by left|]. intros [?|[Hne [= <-]]]; done.
    + rewrite set_add_elem. split.
      * intros [->|?]; [|by left]. by right.
      * intros [?|[_ [= <-]]]; [by right|by left].
    + split; [by left|]. intros [?|[_ ?]]; done.
  - constructor.
  - split; [done|]. intros x. rewrite Hin. split.
    + intros [Hx%elem_of_nil|(s & Hs & Hne & Hc)]; [done|]. eauto.
    + intros (Hne & s & Hs & Hc). right. eauto.
Qed.

(** C8, amended.  [getAllCategories] returns, strictly increasing in
    code-unit order and hence without repeats, the [category] values
    together with the non-empty [fullCategory] values that differ from
    their record's [category]; [getAllComposers] returns the non-empty
    [composer] values in the same way. *)
Theorem categories_and_composers scoresCache scores cache' :
  loadAllScores YAML_parse scoresDir scoresCache = Normal (scores, cache') ->
  exists categories composers,
    getAllCategories YAML_parse scoresDir scoresCache
      = Normal (categories, cache')
    /\ getAllComposers YAML_parse scoresDir scoresCache
      = Normal (composers, cache')
    /\ increasing categories /\ NoDup categories
    /\ (forall x, x ∈ categories <->
          exists s, s ∈ scores
            /\ (x = category s
                \/ (x = fullCategory s /\ fullCategory s <> []
                    /\ fullCategory s <> category s)))
    /\ increasing composers /\ NoDup composers
    /\ (forall x, x ∈ composers <->
          x <> [] /\ exists s, s ∈ scores /\ composer s = Some x).
Proof.
  intros Hload.
  exists (JS.sort (collectCategories scores)),
         (JS.sort (collectComposers scores)).
  unfold getAllCategories, getAllComposers. rewrite Hload. simpl.
  destruct (collectCategories_spec scores) as [Hnd1 Hin1].
  destruct (collectComposers_spec scores) as [Hnd2 Hin2].
  split; [done|]. split; [done|].
  split; [by apply sorted_increasing, sort_sorted|].
  split; [by apply sorted_NoDup, sort_sorted|].
  split; [intros x; by rewrite sort_elem|].
  split; [by apply sorted_increasing, sort_sorted|].
  split; [by apply sorted_NoDup, sort_sorted|].
  intros x. by rewrite sort_elem.
Qed.

End CatalogueProperties.

(** ** The properties at concrete documents and directories *)

Ltac last_two_markers :=
  unfold Spec.atLastTwoMarkers, Spec.noMarker;
  repeat split; try (vm_compute; reflexivity);
  repeat (constructor; [vm_compute; reflexivity|]); try constructor.

Section ParserInstances.
Import JS GenParser Spec Sample.

Example camelKey_time_signature :
  camelKey (lit "time-signature") = lit "timeSignature".
Proof. vm_compute. reflexivity. Qed.

Example camelKey_leaves_other_hyphens :
  camelKey (lit "a--b-C-") = lit "a-B-C-".
Proof. vm_compute. reflexivity. Qed.

Example parse_odeToJoy :
  parseGenFile odeDecoder odeToJoy
  = Normal {| notation := lit ("E E F G" ++ LF ++ "G F E D");
              metadata := <[lit "timeSignature" := lit "4/4"]>
                          (<[lit "composer" := lit "Ludwig van Beethoven"]>
                           (<[lit "title" := lit "Ode to Joy"]> ∅)) |}.
Proof. vm_compute. reflexivity. Qed.

(** An earlier marker line stays in the notation, and a block the decoder
    rejects leaves the metadata empty. *)
Example parse_rejected_block :
  parseGenFile odeDecoder
    (lit ("E E" ++ LF ++ "---" ++ LF ++ "F G" ++ LF ++ " --- " ++ LF
          ++ "title: [" ++ LF ++ "---"))
  = Normal {| notation := lit ("E E" ++ LF ++ "---" ++ LF ++ "F G");
              metadata := ∅ |}.
Proof. vm_compute. reflexivity. Qed.

(** C1.  The claim fails at a block with the key [__proto__]: the scan
    finds the block, the decoder hands over both pairs, and the metadata
    holds the second pair only; the claim has it equal to the decoded
    pairs, [__proto__] included. *)
Theorem parse_loses_proto_key :
  atLastTwoMarkers (split newline protoDoc)
    [lit "E E"] (lit "---") protoLines (lit "---") [[]]
  /\ protoDecoder (join [newline] protoLines) = Normal (JObj protoPairs)
  /\ parseGenFile protoDecoder protoDoc
     = Normal {| notation := lit "E E";
                 metadata := <[lit "timeSignature" := lit "4/4"]> ∅ |}
  /\ parseGenFile protoDecoder protoDoc
     <> Normal {| notation := lit "E E";
                  metadata := <[lit "__proto__" := lit "evil"]>
                                (<[lit "timeSignature" := lit "4/4"]> ∅) |}.
Proof.
  split; [last_two_markers|].
  split; [vm_compute; reflexivity|].
  split; [vm_compute; reflexivity|].
  intros Heq.
  apply (f_equal (fun r => match r with
                           | Normal p => metadata p !! lit "__proto__"
                           | Throw => None
                           end)) in Heq.
  vm_compute in Heq. discriminate.
Qed.

(** C6.  The claim fails at a mapping with the key [__proto__]: of its
    two entries only the second is in the result, so not every key is
    carried over; and at a mapping one of whose values is a mapping with
    the key [toString] the function throws, so not every value is given a
    string form. *)
Theorem normalizeMetadataKeys_loses_proto_key :
  normalizeMetadataKeys (JObj protoPairs)
  = Normal (<[lit "timeSignature" := lit "4/4"]> ∅)
  /\ normalizeMetadataKeys (JObj shadowPairs) = Throw.
Proof. split; vm_compute; reflexivity. Qed.

Lemma parse_at_trailing_block_witness :
  (2 <= length (markerLines odeToJoy))%nat
  /\ (exists before m1 block m2 after,
        atLastTwoMarkers (split newline odeToJoy) before m1 block m2 after)
  /\ forall before m1 block m2 after,
       atLastTwoMarkers (split newline odeToJoy) before m1 block m2 after ->
       (exists result,
          parseGenFile odeDecoder odeToJoy = Normal result
          /\ notation result = trim (join [newline] before)
          /\ forall pairs,
               odeDecoder (join [newline] block) = Normal (JObj pairs) ->
               Forall (fun p => isScalarOrNull p.2 = true) pairs ->
               metadata result
               = stored (List.map (fun p => (p.1, scalarText p.2)) pairs))
       /\ (forall line, line ∈ before ->
             line ∈ split newline (join [newline] before)).
Proof.
  split; [vm_compute; lia|].
  apply (parse_at_trailing_block odeDecoder odeToJoy). vm_compute. lia.
Defined.

Lemma parse_without_block_witness :
  (length (markerLines (lit "C D E")) < 2)%nat
  /\ parseGenFile odeDecoder (lit "C D E")
     = Normal {| notation := trim (lit "C D E"); metadata := ∅ |}.
Proof.
  split; [vm_compute; lia|].
  apply (parse_without_block odeDecoder (lit "C D E")). vm_compute. lia.
Defined.

Lemma roundtrip_without_marker_lines_witness :
  odeDecoder odeToJoyBlock = Normal (JObj odeToJoyPairs)
  /\ Forall (fun p => isScalarOrNull p.2 = true) odeToJoyPairs
  /\ Forall (fun p => camelCase p.1 <> lit "__proto__") odeToJoyPairs
  /\ noMarker (split newline odeToJoyBlock)
  /\ parseGenFile odeDecoder (serialize (lit " E E F G ") odeToJoyBlock)
     = Normal {| notation := trim (lit " E E F G ");
                 metadata := camelCased odeToJoyPairs |}.
Proof.
  assert (Hdecode : odeDecoder odeToJoyBlock = Normal (JObj odeToJoyPairs))
    by (vm_compute; reflexivity).
  assert (Hscalar : Forall (fun p => isScalarOrNull p.2 = true) odeToJoyPairs)
    by (repeat constructor).
  assert (Hproto : Forall (fun p => camelCase p.1 <> lit "__proto__")
                     odeToJoyPairs)
    by (repeat (constructor; [vm_compute; discriminate|]); constructor).
  assert (Hclean : noMarker (split newline odeToJoyBlock))
    by (vm_compute; repeat constructor).
  split; [exact Hdecode|]. split; [exact Hscalar|]. split; [exact Hproto|].
  split; [exact Hclean|].
  exact (roundtrip_without_marker_lines odeDecoder (lit " E E F G ")
           odeToJoyBlock odeToJoyPairs Hdecode Hscalar Hproto Hclean).
Defined.

(** C3 as stated fails.  The mapping [hymnPairs] has one string value
    whose middle line is three hyphens; its block-literal encoding decodes
    back to the mapping, yet the serialized document is parsed to a
    notation that swallows the first marker and part of the block, and to
    the empty metadata. *)
Lemma roundtrip_counterexample :
  hymnDecoder hymnEncoded = Normal (JObj hymnPairs)
  /\ parseGenFile hymnDecoder (serialize (lit "C D E") hymnEncoded)
     = Normal {| notation :=
                   lit ("C D E" ++ LF ++ "---" ++ LF ++ "lyrics: |-"
                        ++ LF ++ "  la");
                 metadata := ∅ |}
  /\ parseGenFile hymnDecoder (serialize (lit "C D E") hymnEncoded)
     <> Normal {| notation := trim (lit "C D E");
                  metadata := camelCased hymnPairs |}.
Proof.
  split; [vm_compute; reflexivity|].
  split; [vm_compute; reflexivity|].
  intros Heq.
  apply (f_equal (fun r => match r with
                           | Normal p => length (notation p)
                           | Throw => O
                           end)) in Heq.
  vm_compute in Heq. discriminate.
Qed.

End ParserInstances.

Section CatalogueInstances.
Import JS Spec ScoreLoader Sample.

Example filter_by_composer :
  match filterScores odeDecoder asciiLower sampleDir (Some beetFilter) None
  with
  | Normal (kept, _) => path <$> kept
  | Throw => []
  end = [lit "classical/ode.gen"].
Proof. vm_compute. reflexivity. Qed.

Lemma filterScores_conjunction_witness :
  loadAllScores odeDecoder sampleDir None
  = Normal (sampleScores, Some sampleScores)
  /\ exists keep : Score -> bool,
       (forall score, keep score = true <-> Matches asciiLower beetFilter score)
       /\ filterScores odeDecoder asciiLower sampleDir (Some beetFilter) None
          = Normal (List.filter keep sampleScores, Some sampleScores).
Proof.
  assert (Hload : loadAllScores odeDecoder sampleDir None
                  = Normal (sampleScores, Some sampleScores))
    by (vm_compute; reflexivity).
  split; [exact Hload|].
  exact (filterScores_conjunction odeDecoder asciiLower sampleDir beetFilter
           None sampleScores (Some sampleScores) Hload).
Defined.

Lemma record_category_fields_witness :
  forallb validEntry sampleDir = true
  /\ exists scores,
       scanDirectory odeDecoder sampleDir [] = Normal scores
       /\ forall s, s ∈ scores ->
            exists dirs name text,
              located sampleDir dirs name text
              /\ split slash (path s) = dirs ++ [name]
              /\ filename s = name
              /\ category s = nth 0 (split slash (path s)) []
              /\ fullCategory s = join [slash] dirs
              /\ (dirs = [] ->
                    category s = name /\ fullCategory s = []
                    /\ fullCategory s <> category s)
              /\ (fullCategory s = category s <-> exists d, dirs = [d]).
Proof.
  assert (Hvalid : forallb validEntry sampleDir = true)
    by (vm_compute; reflexivity).
  split; [exact Hvalid|].
  exact (record_category_fields odeDecoder sampleDir Hvalid).
Defined.

(** C4 as stated fails for a file directly in the scores directory: the
    record of [scale.gen] has the file name as [category] and the empty
    string as [fullCategory]. *)
Lemma top_level_file_counterexample :
  scanDirectory odeDecoder sampleDir [] = Normal sampleScores
  /\ path <$> sampleScores
     = [lit "scale.gen"; lit "classical/ode.gen";
        lit "classical/baroque/air.gen"]
  /\ category <$> sampleScores
     = [lit "scale.gen"; lit "classical"; lit "classical"]
  /\ fullCategory <$> sampleScores
     = [[]; lit "classical"; lit "classical/baroque"]
  /\ exists s, s ∈ sampleScores
       /\ split slash (path s) = [filename s]
       /\ fullCategory s <> category s.
Proof.
  split; [vm_compute; reflexivity|].
  split; [vm_compute; reflexivity|].
  split; [vm_compute; reflexivity|].
  split; [vm_compute; reflexivity|].
  destruct sampleScores as [|s rest] eqn:E; [vm_compute in E; discriminate|].
  exists s. split; [left|].
  assert (Hs : head sampleScores = Some s) by (by rewrite E).
  vm_compute in Hs. injection Hs as <-.
  split; [vm_compute; reflexivity|]. vm_compute. discriminate.
Qed.

Lemma categories_and_composers_witness :
  loadAllScores odeDecoder sampleDir None
  = Normal (sampleScores, Some sampleScores)
  /\ exists categories composers,
       getAllCategories odeDecoder sampleDir None
         = Normal (categories, Some sampleScores)
       /\ getAllComposers odeDecoder sampleDir None
         = Normal (composers, Some sampleScores)
       /\ increasing categories /\ NoDup categories
       /\ (forall x, x ∈ categories <->
             exists s, s ∈ sampleScores
               /\ (x = category s
                   \/ (x = fullCategory s /\ fullCategory s <> []
                       /\ fullCategory s <> category s)))
       /\ increasing composers /\ NoDup composers
       /\ (forall x, x ∈ composers <->
             x <> [] /\ exists s, s ∈ sampleScores /\ composer s = Some x).
Proof.
  assert (Hload : loadAllScores odeDecoder sampleDir None
                  = Normal (sampleScores, Some sampleScores))
    by (vm_compute; reflexivity).
  split; [exact Hload|].
  exact (categories_and_composers odeDecoder sampleDir None sampleScores
           (Some sampleScores) Hload).
Defined.

(** C8 as stated fails on the categories: the record of [scale.gen] has
    the empty [fullCategory], which differs from its [category], and the
    listing leaves it out. *)
Lemma categories_counterexample :
  loadAllScores odeDecoder sampleDir None
  = Normal (sampleScores, Some sampleScores)
  /\ getAllCategories odeDecoder sampleDir None
     = Normal ([lit "classical"; lit "classical/baroque"; lit "scale.gen"],
               Some sampleScores)
  /\ exists s, s ∈ sampleScores
       /\ fullCategory s <> category s
       /\ fullCategory s ∉ [lit "classical"; lit "classical/baroque";
                             lit "scale.gen"].
Proof.
  split; [vm_compute; reflexivity|].
  split; [vm_compute; reflexivity|].
  destruct sampleScores as [|s rest] eqn:E; [vm_compute in E; discriminate|].
  exists s. split; [left|].
  assert (Hs : head sampleScores = Some s) by (by rewrite E).
  vm_compute in Hs. injection Hs as <-.
  split; [vm_compute; discriminate|].
  vm_compute. intros Hin.
  repeat (apply elem_of_cons in Hin as [Hin|Hin]; [discriminate|]).
  by apply elem_of_nil in Hin.
Qed.

End CatalogueInstances.

(** * Further properties of the parser *)

Section TrimFacts.
Import JS GenParser Spec.

Lemma trimStart_split s :
  exists l, allWhiteSpace l /\ s = l ++ trimStart s.
Proof.
  induction s as [|c s (l & Hl & Hs)]; simpl.
  - exists []. split; [constructor|done].
  - destruct (isWhiteSpace c) eqn:E.
    + exists (c :: l). split; [by constructor|]. simpl. by rewrite <- Hs.
    + exists []. split; [constructor|done].
Qed.

Lemma trimStart_head s :
  trimStart s = []
  \/ exists c t, trimStart s = c :: t /\ isWhiteSpace c = false.
Proof.
  induction s as [|c s IH]; simpl; [by left|].
  destruct (isWhiteSpace c) eqn:E; [done|]. right. eauto.
Qed.

Lemma trimStart_fixed c t :
  isWhiteSpace c = false -> trimStart (c :: t) = c :: t.
Proof. intros Hc. simpl. by rewrite Hc. Qed.

Lemma trimStart_idem s : trimStart (trimStart s) = trimStart s.
Proof.
  destruct (trimStart_head s) as [->|(c & t & -> & Hc)]; [done|].
  by apply trimStart_fixed.
Qed.

Lemma trimStart_app_ws l x :
  allWhiteSpace l -> trimStart (l ++ x) = trimStart x.
Proof.
  induction 1 as [|c l Hc Hl IH]; [done|]. simpl. by rewrite Hc.
Qed.

(** A trimmed string is its argument without a whitespace prefix and a
    whitespace suffix. *)
Lemma trim_split s :
  exists l r, allWhiteSpace l /\ allWhiteSpace r /\ s = l ++ trim s ++ r.
Proof.
  unfold trim, trimEnd.
  destruct (trimStart_split s) as (l & Hl & Hs).
  destruct (trimStart_split (rev (trimStart s))) as (w & Hw & Hrev).
  exists l, (rev w). split; [done|]. split.
  - unfold allWhiteSpace in *. apply List.Forall_forall.
    intros c Hc%in_rev. rewrite List.Forall_forall in Hw. by apply Hw.
  - rewrite <- rev_app_distr, <- Hrev, rev_involutive. exact Hs.
Qed.

(** A trimmed string neither starts nor ends with whitespace. *)
Lemma trim_tidy s :
  trimStart (trim s) = trim s /\ trimStart (rev (trim s)) = rev (trim s).
Proof.
  unfold trim, trimEnd. split.
  - destruct (trimStart_split (rev (trimStart s))) as (w & Hw & Hrev).
    set (t := trimStart (rev (trimStart s))) in *.
    destruct (rev t) as [|c u] eqn:Et; [done|].
    apply trimStart_fixed.
    assert (Ha : trimStart s = (c :: u) ++ rev w).
    { rewrite <- Et, <- rev_app_distr, <- Hrev. by rewrite rev_involutive. }
    destruct (trimStart_head s) as [Hnil|(c' & t' & Hc' & Hws)].
    + by rewrite Hnil in Ha.
    + rewrite Hc' in Ha. by injection Ha as <- _.
  - rewrite rev_involutive. apply trimStart_idem.
Qed.

Lemma trim_fixed x :
  trimStart x = x -> trimStart (rev x) = rev x -> trim x = x.
Proof.
  intros Hstart Hend. unfold trim, trimEnd.
  by rewrite Hstart, Hend, rev_involutive.
Qed.

Lemma trim_idem s : trim (trim s) = trim s.
Proof. destruct (trim_tidy s). by apply trim_fixed. Qed.

(** Whitespace around a text that neither starts nor ends with
    whitespace is all that [trim] removes. *)
Lemma trim_padded l x r :
  allWhiteSpace l -> allWhiteSpace r ->
  x <> [] -> trimStart x = x -> trimStart (rev x) = rev x ->
  trim (l ++ x ++ r) = x.
Proof.
  intros Hl Hr Hne Hstart Hend. unfold trim, trimEnd.
  rewrite trimStart_app_ws by done.
  assert (Hxr : trimStart (x ++ r) = x ++ r).
  { destruct x as [|c u]; [done|]. simpl in Hstart |- *.
    destruct (isWhiteSpace c) eqn:E; [|done].
    exfalso. destruct (trimStart_split u) as (w & _ & Hu).
    apply (f_equal length) in Hstart, Hu.
    rewrite length_app in Hu. simpl in Hstart. lia. }
  rewrite Hxr, rev_app_distr, trimStart_app_ws.
  - by rewrite Hend, rev_involutive.
  - unfold allWhiteSpace in *. apply List.Forall_forall.
    intros c Hc%in_rev. rewrite List.Forall_forall in Hr. by apply Hr.
Qed.

End TrimFacts.

Section ParserFurther.
Import JS GenParser Spec.
Context {Number : Type} `{NumberOps Number}.
Variable YAML_parse : jsstring -> Completion (JSValue Number).

(** What [parseGenFile] returns, by the number of marker lines. *)
Lemma parseGenFile_cases content :
  parseGenFile YAML_parse content
    = Normal {| notation := trim content; metadata := ∅ |}
  \/ exists before m1 block m2 after,
       atLastTwoMarkers (split newline content) before m1 block m2 after
       /\ parseGenFile YAML_parse content
          = Normal {| notation := trim (join [newline] before);
                      metadata := blockMetadata
                        (YAML_parse (join [newline] block)) |}.
Proof.
  destruct (le_lt_dec 2 (length (markerLines content))) as [Hmany|Hfew].
  - right. destruct (two_markers _ Hmany)
      as (before & m1 & block & m2 & after & Hsplit & Hm1 & Hm2 & Hb & Ha).
    exists before, m1, block, m2, after. split; [done|].
    by apply (parse_at_last_two_markers YAML_parse content before m1 block m2 after).
  - left. by apply parse_few_markers.
Qed.

Lemma blockMetadata_lookup (decoded : Completion (JSValue Number)) k v :
  blockMetadata decoded !! k = Some v -> exists key, k = camelKey key.
Proof.
  unfold blockMetadata.
  destruct (renderAll (decodedPairs decoded)) as [texts|];
    [|by rewrite lookup_empty].
  intros (_ & key & _ & ->)%stored_lookup.
  exists key. apply camelCase_camelKey.
Qed.

(** X1. The notation of every parse result is trimmed: trimming it again
    changes nothing, whichever branch produced it. *)
Theorem notation_is_trimmed content result :
  parseGenFile YAML_parse content = Normal result ->
  trim (notation result) = notation result.
Proof.
  intros Hparse.
  destruct (parseGenFile_cases content)
    as [Hres|(before & m1 & block & m2 & after & _ & Hres)];
    rewrite Hres in Hparse; injection Hparse as <-; simpl; apply trim_idem.
Qed.

(** X2. No key of the metadata of a parse result has a hyphen followed
    by a letter of [[a-z]]; normalising such a key again returns it. *)
Theorem metadata_keys_are_normalised content result k v :
  parseGenFile YAML_parse content = Normal result ->
  metadata result !! k = Some v ->
  hasHyphenLetter k = false /\ camelKey k = k.
Proof.
  intros Hparse Hlook.
  assert (Hno : hasHyphenLetter k = false).
  { destruct (parseGenFile_cases content)
      as [Hres|(before & m1 & block & m2 & after & _ & Hres)];
      rewrite Hres in Hparse; injection Hparse as <-; simpl in Hlook.
    - by rewrite lookup_empty in Hlook.
    - apply blockMetadata_lookup in Hlook as (key & ->).
      apply camelKey_no_pair. }
  split; [done|]. by apply no_pair_fixed.
Qed.

(** X3. The result depends only on the lines before the second-from-last
    marker and on the lines between the last two markers: how the two
    marker lines are padded and what follows the closing marker is
    dropped without trace. *)
Theorem text_after_closing_marker_is_dropped content content'
    before block m1 m2 after m1' m2' after' :
  atLastTwoMarkers (split newline content) before m1 block m2 after ->
  atLastTwoMarkers (split newline content') before m1' block m2' after' ->
  parseGenFile YAML_parse content = parseGenFile YAML_parse content'.
Proof.
  intros (Hs & Hm1 & Hm2 & Hb & Ha) (Hs' & Hm1' & Hm2' & _ & Ha').
  rewrite (parse_at_last_two_markers YAML_parse content before m1 block m2 after)
    by done.
  by rewrite (parse_at_last_two_markers YAML_parse content' before m1' block
                m2' after').
Qed.

(** X4. When the block between the last two markers decodes to [null] or
    to a scalar (an empty block, a bare word, a number) the metadata is
    the empty mapping and the notation is still cut before the block. *)
Theorem scalar_block_gives_empty_metadata content before m1 block m2 after v :
  atLastTwoMarkers (split newline content) before m1 block m2 after ->
  YAML_parse (join [newline] block) = Normal v ->
  isScalarOrNull v = true ->
  parseGenFile YAML_parse content
  = Normal {| notation := trim (join [newline] before); metadata := ∅ |}.
Proof.
  intros (Hs & Hm1 & Hm2 & Hb & Ha) Hdecode Hscalar.
  rewrite (parse_at_last_two_markers YAML_parse content before m1 block m2 after)
    by done.
  rewrite Hdecode. by destruct v.
Qed.

(** X5. Of the entries of a decoded mapping of scalars whose keys
    normalise to one key, the last one stands: an entry is found under its
    camel-cased key, with the text of its value, when that key is not
    [__proto__] and no later entry normalises to the same key. *)
Theorem later_entry_wins (earlier later : list (jsstring * JSValue Number))
    key value :
  Forall (fun p => isScalarOrNull p.2 = true)
         (earlier ++ (key, value) :: later) ->
  camelCase key <> lit "__proto__" ->
  (forall key' value',
     (key', value') ∈ later -> camelCase key' <> camelCase key) ->
  exists result : gmap jsstring jsstring,
    normalizeMetadataKeys (JObj (earlier ++ (key, value) :: later))
      = Normal result
    /\ result !! camelCase key = Some (scalarText value).
Proof.
  intros Hscalar Hproto Hlater. eexists.
  split; [by rewrite normalizeMetadataKeys_object, renderAll_scalars|].
  unfold stored.
  rewrite !map_app, List.filter_app, rev_app_distr. simpl.
  rewrite bool_decide_eq_false_2 by done. simpl.
  rewrite <- app_assoc. simpl.
  rewrite list_to_map_app.
  apply lookup_union_Some_raw. right. split.
  - apply not_elem_of_list_to_map. intros Hin.
    apply list_elem_of_fmap in Hin as ([k v] & Hk & Hin). simpl in Hk.
    apply elem_of_rev, list_elem_of_In, filter_In in Hin as [Hin _].
    apply in_map_iff in Hin as ([k' t'] & Heq & Hin).
    apply in_map_iff in Hin as ([key' value'] & Heq' & Hin).
    simpl in *. injection Heq' as <- <-. injection Heq as <- <-.
    apply (Hlater key' value'); [by apply list_elem_of_In|done].
  - simpl. apply lookup_insert_eq.
Qed.

Lemma camelKey_length key : (length (camelKey key) <= length key)%nat.
Proof.
  induction key as [| c | c letter rest IH1 IH2] using key_pair_ind;
    [done|done|].
  rewrite camelKey_pair.
  destruct ((c =? hyphen)%N && isLowerAZ letter); simpl in *; lia.
Qed.

Lemma no_hyphen_no_pair key : hyphen ∉ key -> hasHyphenLetter key = false.
Proof.
  induction key as [|c rest IH]; [done|]. intros Hnot.
  apply not_elem_of_cons in Hnot as [Hc Hrest].
  destruct rest as [|letter rest']; [done|].
  rewrite hasHyphenLetter_pair, IH by done.
  apply not_eq_sym in Hc. apply N.eqb_neq in Hc. by rewrite Hc.
Qed.

(** X6. A key is left as it is exactly when it has no hyphen followed by
    a letter of [[a-z]], in particular when it has no hyphen at all (a
    key already in camel case passes through); and normalising never
    lengthens a key. *)
Theorem camelKey_unchanged_iff key :
  (camelKey key = key <-> hasHyphenLetter key = false)
  /\ (hyphen ∉ key -> camelKey key = key)
  /\ (length (camelKey key) <= length key)%nat.
Proof.
  split; [split|split].
  - intros Heq. rewrite <- Heq. apply camelKey_no_pair.
  - apply no_pair_fixed.
  - intros Hnot. by apply no_pair_fixed, no_hyphen_no_pair.
  - apply camelKey_length.
Qed.

(** X7. A line counts as a marker exactly when it is three hyphens with
    nothing but whitespace before and after them; a carriage return left
    by a CRLF line ending is such whitespace. *)
Theorem isMarker_iff line :
  isMarker line = true
  <-> exists l r, allWhiteSpace l /\ allWhiteSpace r
        /\ line = l ++ lit "---" ++ r.
Proof.
  unfold isMarker. rewrite bool_decide_eq_true. split.
  - intros Htrim. destruct (trim_split line) as (l & r & Hl & Hr & Hline).
    exists l, r. by rewrite <- Htrim.
  - intros (l & r & Hl & Hr & ->). by apply trim_padded.
Qed.

End ParserFurther.

(** ** A block that decodes to a sequence *)

Section IndexKeyFacts.
Import JS GenParser Spec.

Lemma lit_inj a b : lit a = lit b -> a = b.
Proof.
  unfold lit. intros Heq.
  rewrite <- (string_of_list_ascii_of_string a),
          <- (string_of_list_ascii_of_string b).
  f_equal. revert Heq.
  generalize (list_ascii_of_string a) (list_ascii_of_string b).
  induction l as [|x l IH]; intros [|y l'] Heq; try done.
  simpl in Heq. injection Heq as Hxy Hl. f_equal; [|by apply IH].
  rewrite <- (ascii_N_embedding x), <- (ascii_N_embedding y). by rewrite Hxy.
Qed.

Lemma indexKey_inj i j : indexKey i = indexKey j -> i = j.
Proof.
  unfold indexKey. intros Heq%lit_inj.
  apply DecimalNat.Unsigned.to_uint_inj.
  assert (Hsome : Some (Nat.to_uint i) = Some (Nat.to_uint j)).
  { rewrite <- !NilEmpty.usu. by rewrite Heq. }
  by injection Hsome.
Qed.

Lemma digits_no_hyphen d : hyphen ∉ lit (NilEmpty.string_of_uint d).
Proof.
  induction d as [|d IH|d IH|d IH|d IH|d IH|d IH|d IH|d IH|d IH|d IH];
    [by intros Hin%elem_of_nil|..];
    (intros Hin%elem_of_cons; destruct Hin as [Hin|Hin];
       [by vm_compute in Hin|by apply IH]).
Qed.

Lemma camelKey_indexKey i : camelKey (indexKey i) = indexKey i.
Proof. apply no_pair_fixed, no_hyphen_no_pair, digits_no_hyphen. Qed.

Lemma camelCase_indexKey i : camelCase (indexKey i) = indexKey i.
Proof. rewrite camelCase_camelKey. apply camelKey_indexKey. Qed.

Lemma digits_no_underscore d : 95%N ∉ lit (NilEmpty.string_of_uint d).
Proof.
  induction d as [|d IH|d IH|d IH|d IH|d IH|d IH|d IH|d IH|d IH|d IH];
    [by intros Hin%elem_of_nil|..];
    (intros Hin%elem_of_cons; destruct Hin as [Hin|Hin];
       [by vm_compute in Hin|by apply IH]).
Qed.

Lemma indexKey_not_proto i : indexKey i <> lit "__proto__".
Proof.
  intros Heq. apply (digits_no_underscore (Nat.to_uint i)).
  fold (indexKey i). rewrite Heq. vm_compute. by left.
Qed.

End IndexKeyFacts.

Section SequenceBlocks.
Import JS GenParser Spec.
Context {Number : Type} `{NumberOps Number}.
Variable YAML_parse : jsstring -> Completion (JSValue Number).

Lemma indexed_pairs_elem (items : list (JSValue Number)) k v :
  (k, v) ∈ rev (List.map (fun p => (camelCase p.1, scalarText p.2))
                  (imap (fun i item => (indexKey i, item)) items))
  <-> exists i item,
        items !! i = Some item /\ k = indexKey i /\ v = scalarText item.
Proof.
  rewrite elem_of_rev, list_elem_of_In, in_map_iff. split.
  - intros ([k' item] & Heq & Hin%list_elem_of_In).
    apply elem_of_lookup_imap in Hin as (i & item' & Hpair & Hlook).
    injection Hpair as -> ->. injection Heq as <- <-.
    exists i, item'. by rewrite camelCase_indexKey.
  - intros (i & item & Hlook & -> & ->).
    exists (indexKey i, item). split.
    + simpl. by rewrite camelCase_indexKey.
    + apply list_elem_of_In, elem_of_lookup_imap. eauto.
Qed.

Lemma indexed_pairs_NoDup (items : list (JSValue Number)) :
  NoDup (rev (List.map (fun p => (camelCase p.1, scalarText p.2))
                 (imap (fun i item => (indexKey i, item)) items))).*1.
Proof.
  apply NoDup_fmap_fst.
  - intros k v1 v2 (i1 & it1 & Hl1 & -> & ->)%indexed_pairs_elem
                   (i2 & it2 & Hl2 & Hk & ->)%indexed_pairs_elem.
    apply indexKey_inj in Hk as ->. congruence.
  - apply NoDup_rev_list.
    change (NoDup ((fun p : jsstring * JSValue Number =>
                      (camelCase p.1, scalarText p.2))
                   <$> imap (fun i item => (indexKey i, item)) items)).
    rewrite fmap_imap. apply NoDup_alt. intros i j x.
    rewrite !list_lookup_imap.
    destruct (items !! i) as [a|] eqn:Ea; [|done].
    destruct (items !! j) as [b|] eqn:Eb; [|done].
    simpl. intros [= <-] [= Hk _].
    rewrite !camelCase_indexKey in Hk. symmetry. by apply indexKey_inj.
Qed.

(** The indexed items of a sequence of scalars are scalar pairs none of
    whose keys is [__proto__]. *)
Lemma indexed_pairs_scalar (items : list (JSValue Number)) :
  Forall (fun item => isScalarOrNull item = true) items ->
  Forall (fun p : jsstring * JSValue Number => isScalarOrNull p.2 = true)
         (imap (fun i item => (indexKey i, item)) items).
Proof.
  rewrite !Forall_forall. intros Hall [k item] Hin.
  apply elem_of_lookup_imap in Hin as (i & item' & Hpair & Hlook).
  injection Hpair as -> ->. simpl. eapply Hall, list_elem_of_lookup_2, Hlook.
Qed.

Lemma indexed_pairs_not_proto (items : list (JSValue Number)) :
  Forall (fun p : jsstring * JSValue Number => camelCase p.1 <> lit "__proto__")
         (imap (fun i item => (indexKey i, item)) items).
Proof.
  rewrite Forall_forall. intros [k item] Hin.
  apply elem_of_lookup_imap in Hin as (i & item' & Hpair & Hlook).
  injection Hpair as -> ->. simpl. rewrite camelCase_indexKey.
  apply indexKey_not_proto.
Qed.

(** A mapping with the key [toString] cannot be converted to a string. *)
Lemma ToString_shadowed (props : list (jsstring * JSValue Number)) v :
  (lit "toString", v) ∈ props -> ToString (JObj props) = Throw.
Proof.
  intros Hin. simpl.
  assert (Hex : existsb (fun p : jsstring * JSValue Number =>
                           bool_decide (p.1 = lit "toString")) props = true).
  { apply existsb_exists. exists (lit "toString", v).
    split; [by apply list_elem_of_In|]. by apply bool_decide_eq_true. }
  by rewrite Hex.
Qed.

(** X8. A block that decodes to a sequence of scalars is accepted like a
    mapping (an array is a truthy object): the metadata has the decimal
    indices as keys and the texts of the items as values, and no other
    key. *)
Theorem sequence_block_is_indexed content before m1 block m2 after items :
  atLastTwoMarkers (split newline content) before m1 block m2 after ->
  YAML_parse (join [newline] block) = Normal (JArr items) ->
  Forall (fun item => isScalarOrNull item = true) items ->
  exists result,
    parseGenFile YAML_parse content = Normal result
    /\ notation result = trim (join [newline] before)
    /\ (forall i, metadata result !! indexKey i = scalarText <$> items !! i)
    /\ (forall k, is_Some (metadata result !! k) ->
          exists i, k = indexKey i /\ (i < length items)%nat).
Proof.
  intros (Hs & Hm1 & Hm2 & Hb & Ha) Hdecode Hscalar.
  eexists. split.
  { by apply (parse_at_last_two_markers YAML_parse content before m1 block
                m2 after). }
  split; [done|]. simpl. rewrite Hdecode. unfold blockMetadata. simpl.
  rewrite renderAll_scalars by by apply indexed_pairs_scalar.
  rewrite stored_camelCased by apply indexed_pairs_not_proto.
  unfold camelCased. split.
  - intros i. destruct (items !! i) as [item|] eqn:Ei; simpl.
    + apply elem_of_list_to_map_1; [apply indexed_pairs_NoDup|].
      apply indexed_pairs_elem. eauto.
    + apply not_elem_of_list_to_map.
      intros ([k v] & Hk & Hin)%list_elem_of_fmap. simpl in Hk. subst k.
      apply indexed_pairs_elem in Hin as (j & item & Hj & Hk & _).
      apply indexKey_inj in Hk as ->. congruence.
  - intros k [v Hv]. apply elem_of_list_to_map_2 in Hv.
    apply indexed_pairs_elem in Hv as (i & item & Hi & -> & _).
    exists i. split; [done|]. by apply lookup_lt_Some in Hi.
Qed.

(** X22. One value that cannot be converted to a string costs the whole
    block: when an entry of the decoded mapping, or an item of the
    decoded sequence, is a mapping with the key [toString], the metadata
    is empty, whatever the other entries are, and the notation is still
    cut before the block. *)
Theorem unconvertible_value_empties_metadata content before m1 block m2 after
    key props v :
  atLastTwoMarkers (split newline content) before m1 block m2 after ->
  (key, JObj props) ∈ decodedPairs (YAML_parse (join [newline] block)) ->
  (lit "toString", v) ∈ props ->
  parseGenFile YAML_parse content
  = Normal {| notation := trim (join [newline] before); metadata := ∅ |}.
Proof.
  intros (Hs & Hm1 & Hm2 & Hb & Ha) Hentry Hshadow.
  rewrite (parse_at_last_two_markers YAML_parse content before m1 block m2 after)
    by done.
  unfold blockMetadata.
  by rewrite (renderAll_throw _ key (JObj props) Hentry
                (ToString_shadowed props v Hshadow)).
Qed.

End SequenceBlocks.

(** * Further properties of the catalogue *)

Section GenFileFacts.
Import JS Spec ScoreLoader.

Lemma under_nil f : under [] f = f.
Proof. by destruct f. Qed.

Lemma under_below segs dir f :
  under segs (below dir f) = under (segs ++ [dir]) f.
Proof. unfold under, below. simpl. by rewrite <- app_assoc. Qed.

(** The loop of [scanDirectory] appends, entry after entry, what the
    loop body finds. *)
Lemma scanEntries_flat {B} (visit : Dirent -> Completion (list Score))
    (R : Score -> B -> Prop) (g : Dirent -> list B) entries :
  Forall (fun e => exists found,
            visit e = Normal found /\ Forall2 R found (g e)) entries ->
  forall scores, exists result,
    scanEntries visit entries scores = Normal (scores ++ result)
    /\ Forall2 R result (flat_map g entries).
Proof.
  induction 1 as [|e entries (found & Hfound & Hrel) Hall IH]; intros scores.
  - exists []. simpl. by rewrite app_nil_r.
  - destruct (IH (scores ++ found)) as (result & Hscan & Hres).
    exists (found ++ result). simpl. rewrite Hfound. simpl.
    rewrite app_assoc. split; [exact Hscan|]. by apply Forall2_app.
Qed.

Lemma genFilesOfEntry_head entry f :
  f ∈ genFilesOfEntry entry ->
  exists rest, segments f = entryName entry :: rest.
Proof.
  destruct entry as [name text|name entries]; simpl.
  - destruct (endsWith name (lit ".gen")); [|by intros Hin%elem_of_nil].
    intros ->%list_elem_of_singleton. by exists [].
  - intros Hin%list_elem_of_In%in_map_iff. destruct Hin as (f' & <- & _).
    by exists (segments f').
Qed.

Lemma genFilesOfEntry_valid entry :
  validEntry entry = true ->
  forall f, f ∈ genFilesOfEntry entry ->
    Forall (fun n => validName n = true) (segments f).
Proof.
  induction entry as [name text|name entries IH] using Dirent_tree_ind;
    simpl; intros Hvalid f.
  - destruct (endsWith name (lit ".gen")); [|by intros Hin%elem_of_nil].
    intros ->%list_elem_of_singleton. by constructor.
  - apply andb_true_iff in Hvalid as [Hname Hentries].
    rewrite forallb_forall in Hentries. rewrite List.Forall_forall in IH.
    intros Hin%list_elem_of_In%in_map_iff.
    destruct Hin as (f' & <- & Hin%in_flat_map).
    destruct Hin as (e & He & Hf').
    unfold segments, below. simpl. constructor; [done|].
    apply (IH e He (Hentries e He)). by apply list_elem_of_In.
Qed.

Lemma genFiles_valid entries :
  forallb validEntry entries = true ->
  forall f, f ∈ genFiles entries ->
    Forall (fun n => validName n = true) (segments f).
Proof.
  intros Hvalid f Hin%list_elem_of_In%in_flat_map.
  destruct Hin as (e & He & Hf). rewrite forallb_forall in Hvalid.
  apply (genFilesOfEntry_valid e (Hvalid e He)). by apply list_elem_of_In.
Qed.

(** Files found below entries of different names have different
    segments. *)
Lemma genFiles_NoDup entries :
  NoDup (entryName <$> entries) ->
  Forall (fun e => NoDup (segments <$> genFilesOfEntry e)) entries ->
  NoDup (segments <$> genFiles entries).
Proof.
  unfold genFiles. induction entries as [|e entries IH]; simpl.
  - intros _ _. constructor.
  - intros Hnames Hall. apply NoDup_cons in Hnames as [Hfresh Hnames].
    apply Forall_cons in Hall as [He Hall].
    rewrite fmap_app. apply NoDup_app. split; [done|]. split; [|by apply IH].
    intros segs (f & -> & Hf)%list_elem_of_fmap
                (f' & Heq & Hf')%list_elem_of_fmap.
    apply genFilesOfEntry_head in Hf as [rest Hrest].
    apply list_elem_of_In, in_flat_map in Hf' as (e' & He' & Hf').
    apply list_elem_of_In, genFilesOfEntry_head in Hf' as [rest' Hrest'].
    apply Hfresh. rewrite Hrest, Hrest' in Heq. injection Heq as -> _.
    apply list_elem_of_fmap. exists e'. split; [done|by apply list_elem_of_In].
Qed.

Lemma genFilesOfEntry_NoDup entry :
  distinctNames entry = true -> NoDup (segments <$> genFilesOfEntry entry).
Proof.
  induction entry as [name text|name entries IH] using Dirent_tree_ind;
    simpl; intros Hdistinct.
  - destruct (endsWith name (lit ".gen")); [apply NoDup_singleton|constructor].
  - apply andb_true_iff in Hdistinct as [Hnames Hentries].
    apply bool_decide_eq_true in Hnames. rewrite forallb_forall in Hentries.
    assert (Hsub : NoDup (segments <$> genFiles entries)).
    { apply genFiles_NoDup; [done|]. rewrite List.Forall_forall in IH.
      apply List.Forall_forall. intros e He. by apply IH, Hentries. }
    unfold genFiles in Hsub. revert Hsub.
    generalize (flat_map genFilesOfEntry entries). intros files Hsub.
    induction files as [|f files IHf]; simpl; [constructor|].
    simpl in Hsub. apply NoDup_cons in Hsub as [Hf Hsub].
    apply NoDup_cons. split; [|by apply IHf].
    intros (f' & Heq & Hf')%list_elem_of_fmap. apply Hf.
    apply list_elem_of_In, in_map_iff in Hf' as (f0 & <- & Hf0).
    unfold segments, below in Heq. simpl in Heq. injection Heq as Heq.
    apply list_elem_of_fmap. exists f0. split; [done|by apply list_elem_of_In].
Qed.

(** Joining with slashes tells valid segment lists apart. *)
Lemma join_segments_inj a b :
  a <> [] -> b <> [] ->
  Forall (fun n => validName n = true) a ->
  Forall (fun n => validName n = true) b ->
  join [slash] a = join [slash] b -> a = b.
Proof.
  intros Ha Hb Hva Hvb Heq.
  rewrite <- (split_path a Ha Hva), <- (split_path b Hb Hvb). by rewrite Heq.
Qed.

Lemma find_by_path_unique (scores : list Score) s :
  NoDup (path <$> scores) -> s ∈ scores ->
  List.find (fun s' => eqb_string (path s') (path s)) scores = Some s.
Proof.
  induction scores as [|x scores IH]; simpl; [by intros _ Hin%elem_of_nil|].
  intros Hnodup Hin. apply NoDup_cons in Hnodup as [Hfresh Hnodup].
  unfold eqb_string at 1. case_bool_decide as Heq.
  - apply elem_of_cons in Hin as [->|Hin]; [done|].
    exfalso. apply Hfresh. rewrite Heq. by apply list_elem_of_fmap_2.
  - apply elem_of_cons in Hin as [->|Hin]; [done|]. by apply IH.
Qed.

(** [find] returns the first element that passes the test. *)
Lemma find_first {A} (test : A -> bool) (l : list A) :
  match List.find test l with
  | Some x =>
      exists i, l !! i = Some x /\ test x = true
        /\ forall j y, (j < i)%nat -> l !! j = Some y -> test y = false
  | None => forall y, y ∈ l -> test y = false
  end.
Proof.
  induction l as [|a l IH]; simpl; [by intros y Hy%elem_of_nil|].
  destruct (test a) eqn:Ea.
  - exists O. split; [done|]. split; [done|]. intros j y Hj. lia.
  - destruct (List.find test l) as [x|].
    + destruct IH as (i & Hi & Hx & Hbefore). exists (S i).
      split; [done|]. split; [done|]. intros [|j] y Hj Hy.
      * simpl in Hy. by injection Hy as <-.
      * apply (Hbefore j); [lia|done].
    + intros y [->|Hy]%elem_of_cons; [done|by apply IH].
Qed.

End GenFileFacts.

Section ScanExact.
Import JS Spec ScoreLoader.
Context {Number : Type} `{NumberOps Number}.
Variable YAML_parse : jsstring -> Completion (JSValue Number).

Lemma scanEntry_exact entry :
  validEntry entry = true ->
  forall segs, Forall (fun n => validName n = true) segs ->
  exists found,
    scanEntry YAML_parse (join [slash] segs) entry = Normal found
    /\ Forall2 (fun s f => recordOf YAML_parse s (under segs f))
         found (genFilesOfEntry entry).
Proof.
  induction entry as [name text|name entries IH] using Dirent_tree_ind;
    intros Hvalid segs Hsegs.
  - simpl in Hvalid |- *. rewrite relativePathOf_join by done.
    destruct (endsWith name (lit ".gen")); [|by exists []].
    destruct (parseGenFile_total YAML_parse text) as [[n m] Hparsed].
    rewrite Hparsed. eexists. split; [done|].
    constructor; [|constructor].
    unfold recordOf, under, segments, makeScore. simpl.
    rewrite app_nil_r. by repeat split.
  - simpl in Hvalid. apply andb_true_iff in Hvalid as [Hname Hentries].
    rewrite forallb_forall in Hentries.
    assert (Hsegs' : Forall (fun n => validName n = true) (segs ++ [name])).
    { apply Forall_app. split; [done|]. by constructor. }
    destruct (scanEntries_flat
                (scanEntry YAML_parse (join [slash] (segs ++ [name])))
                (fun s f => recordOf YAML_parse s (under (segs ++ [name]) f))
                genFilesOfEntry entries) with (scores := @nil Score)
      as (result & Hscan & Hres).
    { rewrite List.Forall_forall in IH. apply List.Forall_forall.
      intros e He. exact (IH e He (Hentries e He) _ Hsegs'). }
    exists result. simpl. rewrite relativePathOf_join by done.
    split; [exact Hscan|].
    clear Hscan IH. revert Hres.
    generalize (flat_map genFilesOfEntry entries).
    intros files Hres. induction Hres as [|s f result files Hsf Hres IHres];
      simpl; constructor; [|done].
    by rewrite under_below.
Qed.

Lemma scanDirectory_lists_gen_files_aux entries :
  forallb validEntry entries = true ->
  exists scores,
    scanDirectory YAML_parse entries [] = Normal scores
    /\ Forall2 (recordOf YAML_parse) scores (genFiles entries).
Proof.
  intros Hvalid. rewrite forallb_forall in Hvalid.
  destruct (scanEntries_flat (scanEntry YAML_parse [])
              (recordOf YAML_parse) genFilesOfEntry entries)
    with (scores := @nil Score) as (result & Hscan & Hres).
  - apply List.Forall_forall. intros e He.
    destruct (scanEntry_exact e (Hvalid e He) [] (List.Forall_nil _))
      as (found & Hfound & Hrel).
    exists found. split; [exact Hfound|].
    eapply Forall2_impl; [exact Hrel|]. intros s f Hsf.
    cbv beta in Hsf. by rewrite under_nil in Hsf.
  - exists result. split; [exact Hscan|exact Hres].
Qed.

(** X9. The scan builds exactly one record per [.gen] file of the tree,
    in depth-first listing order and nothing else: each record has the
    slash-joined path, the name and the content of its file, the notation
    and metadata of parsing that content, and the five projections looked
    up in that metadata. *)
Theorem scanDirectory_lists_gen_files entries :
  forallb validEntry entries = true ->
  exists scores,
    scanDirectory YAML_parse entries [] = Normal scores
    /\ Forall2 (recordOf YAML_parse) scores (genFiles entries)
    /\ length scores = length (genFiles entries).
Proof.
  intros Hvalid.
  destruct (scanDirectory_lists_gen_files_aux entries Hvalid)
    as (scores & Hscan & Hrel).
  exists scores. split; [exact Hscan|]. split; [exact Hrel|].
  by apply Forall2_length in Hrel.
Qed.

Lemma scan_paths entries scores :
  Forall2 (recordOf YAML_parse) scores (genFiles entries) ->
  path <$> scores = join [slash] <$> (segments <$> genFiles entries).
Proof.
  generalize (genFiles entries). intros files.
  induction 1 as [|s f scores files (Hpath & _) Hrest IH]; [done|].
  by rewrite !fmap_cons, Hpath, IH.
Qed.

Lemma wellFormedDir_spec entries :
  wellFormedDir entries = true ->
  forallb validEntry entries = true
  /\ NoDup (segments <$> genFiles entries).
Proof.
  unfold wellFormedDir. rewrite !andb_true_iff, bool_decide_eq_true.
  intros [[Hvalid Hnames] Hdistinct]. split; [done|].
  apply genFiles_NoDup; [done|]. rewrite forallb_forall in Hdistinct.
  apply List.Forall_forall. intros e He. by apply genFilesOfEntry_NoDup, Hdistinct.
Qed.

Lemma scanned_paths_NoDup entries scores :
  wellFormedDir entries = true ->
  scanDirectory YAML_parse entries [] = Normal scores ->
  NoDup (path <$> scores).
Proof.
  intros Hwf Hscan. apply wellFormedDir_spec in Hwf as [Hvalid Hnodup].
  destruct (scanDirectory_records YAML_parse entries Hvalid)
    as (scores' & Hscan' & _).
  destruct (scanEntries_flat (scanEntry YAML_parse [])
              (recordOf YAML_parse) genFilesOfEntry entries)
    with (scores := @nil Score) as (result & Hflat & Hres).
  { rewrite forallb_forall in Hvalid.
    apply List.Forall_forall. intros e He.
    destruct (scanEntry_exact e (Hvalid e He) [] (List.Forall_nil _))
      as (found & Hfound & Hrel).
    exists found. split; [exact Hfound|].
    eapply Forall2_impl; [exact Hrel|]. intros s f Hsf.
    cbv beta in Hsf. by rewrite under_nil in Hsf. }
  unfold scanDirectory in Hscan. rewrite Hflat in Hscan.
  injection Hscan as <-. simpl.
  rewrite (scan_paths entries result Hres).
  apply NoDup_fmap_2_strong; [|done].
  intros a b (fa & -> & Hfa)%list_elem_of_fmap
             (fb & -> & Hfb)%list_elem_of_fmap Heq.
  apply join_segments_inj; try done.
  - unfold segments. by destruct (inDirs fa).
  - unfold segments. by destruct (inDirs fb).
  - by apply (genFiles_valid entries).
  - by apply (genFiles_valid entries).
Qed.

(** X10. When no directory lists a name twice, no two records of the
    scan have the same path: the paths of the catalogue are pairwise
    different, position by position. *)
Theorem scanned_paths_are_unique entries scores :
  wellFormedDir entries = true ->
  scanDirectory YAML_parse entries [] = Normal scores ->
  NoDup (path <$> scores)
  /\ forall i j a b,
       scores !! i = Some a -> scores !! j = Some b ->
       path a = path b -> i = j.
Proof.
  intros Hwf Hscan.
  pose proof (scanned_paths_NoDup entries scores Hwf Hscan) as Hnodup.
  split; [exact Hnodup|]. intros i j a b Hi Hj Heq.
  apply (proj1 (NoDup_alt _) Hnodup i j (path a)).
  - by rewrite list_lookup_fmap, Hi.
  - by rewrite list_lookup_fmap, Hj, Heq.
Qed.

End ScanExact.

Section QueryProperties.
Import JS Spec ScoreLoader.
Context {Number : Type} `{NumberOps Number}.
Variable YAML_parse : jsstring -> Completion (JSValue Number).
Variable toLowerCase : jsstring -> jsstring.

(** X11. [getScoreByPath] returns the first record of the catalogue whose
    path equals the argument, and no record exactly when the catalogue
    has none with that path; a path that only contains or resembles the
    argument is no match. *)
Theorem getScoreByPath_first_match scoresDir wanted scoresCache scores cache' :
  loadAllScores YAML_parse scoresDir scoresCache = Normal (scores, cache') ->
  exists found,
    getScoreByPath YAML_parse scoresDir wanted scoresCache
      = Normal (found, cache')
    /\ (found = None <-> forall s, s ∈ scores -> path s <> wanted)
    /\ (forall s, found = Some s ->
          path s = wanted
          /\ exists i, scores !! i = Some s
               /\ forall j s', (j < i)%nat -> scores !! j = Some s' ->
                    path s' <> wanted).
Proof.
  intros Hload. unfold getScoreByPath. rewrite Hload. simpl.
  eexists. split; [done|].
  pose proof (find_first (fun s => eqb_string (path s) wanted) scores) as Hfind.
  destruct (List.find _ scores) as [x|].
  - destruct Hfind as (i & Hi & Hx & Hbefore).
    apply bool_decide_eq_true in Hx. split.
    + split; [done|]. intros Hnone. exfalso.
      apply (Hnone x); [|done]. apply list_elem_of_lookup. eauto.
    + intros s [= <-]. split; [done|]. exists i. split; [done|].
      intros j s' Hj Hs'. specialize (Hbefore j s' Hj Hs').
      by apply bool_decide_eq_false in Hbefore.
  - split; [|done]. split; [|done]. intros _ s Hs.
    specialize (Hfind s Hs). by apply bool_decide_eq_false in Hfind.
Qed.

(** X12. Round trip through the path: on a directory tree that lists no
    name twice, every record of the loaded catalogue is returned by
    [getScoreByPath] at its own path, by the call that loads and by any
    call after it. *)
Theorem getScoreByPath_own_path scoresDir scores cache' :
  wellFormedDir scoresDir = true ->
  loadAllScores YAML_parse scoresDir None = Normal (scores, cache') ->
  forall s, s ∈ scores ->
    getScoreByPath YAML_parse scoresDir (path s) None
      = Normal (Some s, cache')
    /\ getScoreByPath YAML_parse scoresDir (path s) cache'
       = Normal (Some s, cache').
Proof.
  intros Hwf Hload s Hs. unfold getScoreByPath.
  assert (Hcache : cache' = Some scores /\
            scanDirectory YAML_parse scoresDir [] = Normal scores).
  { simpl in Hload.
    destruct (scanDirectory YAML_parse scoresDir []) as [scanned|]; [|done].
    by injection Hload as <- <-. }
  destruct Hcache as [-> Hscan].
  rewrite Hload. simpl.
  rewrite find_by_path_unique;
    [done|by apply (scanned_paths_NoDup YAML_parse scoresDir)|done].
Qed.

Lemma loadAllScores_cache scoresDir scoresCache scores cache' :
  loadAllScores YAML_parse scoresDir scoresCache = Normal (scores, cache') ->
  cache' = Some scores.
Proof.
  destruct scoresCache as [cached|]; simpl.
  - by intros [= <- <-].
  - destruct (scanDirectory YAML_parse scoresDir []); [|done].
    by intros [= <- <-].
Qed.

(** X13. After the first load the cache holds the catalogue, and every
    later operation answers from it without looking at the directory:
    with the returned cache, each operation gives the same answer
    whatever the directory has become, and leaves the cache as it is. *)
Theorem loaded_cache_is_final scoresDir scoresDir' scoresCache scores cache' :
  loadAllScores YAML_parse scoresDir scoresCache = Normal (scores, cache') ->
  cache' = Some scores
  /\ loadAllScores YAML_parse scoresDir' cache' = Normal (scores, cache')
  /\ (forall filter,
        filterScores YAML_parse toLowerCase scoresDir' filter cache'
        = filterScores YAML_parse toLowerCase scoresDir filter scoresCache)
  /\ (forall wanted,
        getScoreByPath YAML_parse scoresDir' wanted cache'
        = getScoreByPath YAML_parse scoresDir wanted scoresCache)
  /\ getAllCategories YAML_parse scoresDir' cache'
     = getAllCategories YAML_parse scoresDir scoresCache
  /\ getAllComposers YAML_parse scoresDir' cache'
     = getAllComposers YAML_parse scoresDir scoresCache
  /\ (forall query,
        searchByTitle YAML_parse toLowerCase scoresDir' query cache'
        = searchByTitle YAML_parse toLowerCase scoresDir query scoresCache)
  /\ (forall query,
        searchByComposer YAML_parse toLowerCase scoresDir' query cache'
        = searchByComposer YAML_parse toLowerCase scoresDir query scoresCache).
Proof.
  intros Hload.
  pose proof (loadAllScores_cache _ _ _ _ Hload) as ->.
  assert (Hagain : loadAllScores YAML_parse scoresDir' (Some scores)
                   = Normal (scores, Some scores)) by done.
  unfold filterScores, getScoreByPath, getAllCategories, getAllComposers,
    searchByTitle, searchByComposer.
  rewrite Hload, Hagain. done.
Qed.

Lemma search_test field query :
  truthy_bool (includesLower toLowerCase field (toLowerCase query)) = true
  <-> exists t, field = Some t /\ containsCI toLowerCase t query.
Proof.
  pose proof (contains_test toLowerCase field query) as Htest.
  rewrite negb_false_iff in Htest. exact Htest.
Qed.

(** X14. [searchByTitle] and [searchByComposer] return, in catalogue
    order, exactly the records that have the field and whose lowered
    field contains the lowered query; a record without the field is left
    out and raises nothing. *)
Theorem search_by_containment scoresDir query scoresCache scores cache' :
  loadAllScores YAML_parse scoresDir scoresCache = Normal (scores, cache') ->
  exists byTitle byComposer : Score -> bool,
    (forall s, byTitle s = true
       <-> exists t, title s = Some t /\ containsCI toLowerCase t query)
    /\ (forall s, byComposer s = true
       <-> exists c, composer s = Some c /\ containsCI toLowerCase c query)
    /\ searchByTitle YAML_parse toLowerCase scoresDir query scoresCache
       = Normal (List.filter byTitle scores, cache')
    /\ searchByComposer YAML_parse toLowerCase scoresDir query scoresCache
       = Normal (List.filter byComposer scores, cache').
Proof.
  intros Hload.
  exists (fun s => truthy_bool
            (includesLower toLowerCase (title s) (toLowerCase query))),
         (fun s => truthy_bool
            (includesLower toLowerCase (composer s) (toLowerCase query))).
  split; [intros s; apply search_test|].
  split; [intros s; apply search_test|].
  unfold searchByTitle, searchByComposer. by rewrite Hload.
Qed.

Lemma keepScore_titleOnly query score :
  query <> [] ->
  keepScore toLowerCase (titleOnly query) score
  = truthy_bool (includesLower toLowerCase (title score) (toLowerCase query)).
Proof.
  intros Hq. unfold keepScore, titleOnly. simpl.
  destruct query as [|c q]; [done|]. simpl.
  by destruct (truthy_bool _).
Qed.

Lemma keepScore_composerOnly query score :
  query <> [] ->
  keepScore toLowerCase (composerOnly query) score
  = truthy_bool
      (includesLower toLowerCase (composer score) (toLowerCase query)).
Proof.
  intros Hq. unfold keepScore, composerOnly. simpl.
  destruct query as [|c q]; [done|]. simpl.
  by destruct (truthy_bool _).
Qed.

(** X15. A search with a non-empty query is the filter with that one
    criterion.  With the empty query the two part ways: the filter
    returns the whole catalogue (C10), the search returns only the
    records that have the field, given that [toLowerCase] maps the empty
    string to itself. *)
Theorem search_versus_filter scoresDir query scoresCache :
  (query <> [] ->
     searchByTitle YAML_parse toLowerCase scoresDir query scoresCache
     = filterScores YAML_parse toLowerCase scoresDir
         (Some (titleOnly query)) scoresCache
     /\ searchByComposer YAML_parse toLowerCase scoresDir query scoresCache
        = filterScores YAML_parse toLowerCase scoresDir
            (Some (composerOnly query)) scoresCache)
  /\ (toLowerCase [] = [] ->
      forall scores cache',
        loadAllScores YAML_parse scoresDir scoresCache
          = Normal (scores, cache') ->
        searchByTitle YAML_parse toLowerCase scoresDir [] scoresCache
        = Normal (List.filter (fun s => bool_decide (is_Some (title s)))
                    scores, cache')
        /\ searchByComposer YAML_parse toLowerCase scoresDir [] scoresCache
           = Normal (List.filter (fun s => bool_decide (is_Some (composer s)))
                       scores, cache')).
Proof.
  split.
  - intros Hq. unfold searchByTitle, searchByComposer, filterScores.
    destruct (loadAllScores YAML_parse scoresDir scoresCache) as [loaded|];
      [|done].
    simpl. split; f_equal; f_equal; apply List.filter_ext; intros s.
    + symmetry. by apply keepScore_titleOnly.
    + symmetry. by apply keepScore_composerOnly.
  - intros Hlower scores cache' Hload.
    unfold searchByTitle, searchByComposer. rewrite Hload, Hlower. simpl.
    split; f_equal; f_equal; apply List.filter_ext; intros s.
    + unfold includesLower. destruct (title s) as [t|]; simpl; [|done].
      by destruct (toLowerCase t).
    + unfold includesLower. destruct (composer s) as [c|]; simpl; [|done].
      by destruct (toLowerCase c).
Qed.

Lemma whenSet_narrow wide narrow (P : jsstring -> Prop) :
  keepsCriterion wide narrow -> whenSet narrow P -> whenSet wide P.
Proof.
  unfold keepsCriterion, whenSet. intros Hkeep Hnarrow w -> Hw.
  apply Hnarrow; [|done]. apply Hkeep. by destruct w.
Qed.

Lemma filter_sublist {A} (p q : A -> bool) (l : list A) :
  (forall x, p x = true -> q x = true) ->
  sublist (List.filter p l) (List.filter q l).
Proof.
  intros Hpq. induction l as [|x l IH]; simpl; [constructor|].
  destruct (p x) eqn:Ep.
  - rewrite (Hpq x Ep). by constructor.
  - destruct (q x); [by constructor|done].
Qed.

(** X16. Asking for more never returns more: when a filter keeps every
    non-empty criterion of another one, its result is a subsequence of
    the other's result. *)
Theorem narrower_filter_returns_subsequence scoresDir wide narrow
    scoresCache scores cache' :
  narrows wide narrow ->
  loadAllScores YAML_parse scoresDir scoresCache = Normal (scores, cache') ->
  exists few many,
    filterScores YAML_parse toLowerCase scoresDir (Some narrow) scoresCache
      = Normal (few, cache')
    /\ filterScores YAML_parse toLowerCase scoresDir (Some wide) scoresCache
      = Normal (many, cache')
    /\ sublist few many /\ sublist many scores.
Proof.
  intros (Ht & Hc & Hcat & Hts & Htp & Hks) Hload.
  unfold filterScores. rewrite Hload. simpl.
  eexists _, _. split; [done|]. split; [done|]. split.
  - apply filter_sublist. intros s.
    rewrite !keepScore_Matches.
    intros (M1 & M2 & M3 & M4 & M5 & M6).
    repeat split; eapply whenSet_narrow; eauto.
  - rewrite <- (filter_all scores (fun _ => true)) at 2 by done.
    by apply filter_sublist.
Qed.

End QueryProperties.

Section ListingProperties.
Import JS Spec ScoreLoader.
Context {Number : Type} `{NumberOps Number}.
Variable YAML_parse : jsstring -> Completion (JSValue Number).
Variable toLowerCase : jsstring -> jsstring.

Lemma keepScore_categoryOnly wanted score :
  category score = wanted \/ fullCategory score = wanted ->
  keepScore toLowerCase (categoryOnly wanted) score = true.
Proof.
  intros Hcat. apply keepScore_Matches. unfold Matches, categoryOnly. simpl.
  repeat split; try (by intros w Hw).
  intros w [= <-] _. unfold equalCI.
  destruct Hcat as [->| ->]; [by left|by right].
Qed.

(** X17. Every listed category selects something: filtering by a value
    returned by [getAllCategories] returns at least one record, and so do
    filtering and searching by a value returned by [getAllComposers]. *)
Theorem listed_values_select_records scoresDir scoresCache scores cache' :
  loadAllScores YAML_parse scoresDir scoresCache = Normal (scores, cache') ->
  exists categories composers,
    getAllCategories YAML_parse scoresDir scoresCache
      = Normal (categories, cache')
    /\ getAllComposers YAML_parse scoresDir scoresCache
      = Normal (composers, cache')
    /\ (forall x, x ∈ categories ->
          exists kept s,
            filterScores YAML_parse toLowerCase scoresDir
              (Some (categoryOnly x)) scoresCache = Normal (kept, cache')
            /\ s ∈ kept)
    /\ (forall x, x ∈ composers ->
          exists kept found s,
            filterScores YAML_parse toLowerCase scoresDir
              (Some (composerOnly x)) scoresCache = Normal (kept, cache')
            /\ searchByComposer YAML_parse toLowerCase scoresDir x scoresCache
               = Normal (found, cache')
            /\ s ∈ kept /\ s ∈ found /\ composer s = Some x).
Proof.
  intros Hload.
  unfold getAllCategories, getAllComposers, filterScores, searchByComposer.
  rewrite Hload. simpl.
  eexists _, _. split; [done|]. split; [done|]. split.
  - intros x Hx. rewrite sort_elem in Hx.
    apply (proj2 (collectCategories_spec YAML_parse scores)) in Hx
      as (s & Hs & Hx).
    eexists _, s. split; [done|].
    apply list_elem_of_In, filter_In. split; [by apply list_elem_of_In|].
    apply keepScore_categoryOnly. destruct Hx as [->|(-> & _)]; tauto.
  - intros x Hx. rewrite sort_elem in Hx.
    apply (proj2 (collectComposers_spec scores)) in Hx as (Hne & s & Hs & Hc).
    assert (Htest : truthy_bool
              (includesLower toLowerCase (composer s) (toLowerCase x)) = true).
    { apply search_test. exists x. split; [done|]. by exists [], []; rewrite app_nil_r. }
    eexists _, _, s. split; [done|]. split; [done|].
    split; [|split; [|done]].
    + apply list_elem_of_In, filter_In. split; [by apply list_elem_of_In|].
      by rewrite keepScore_composerOnly.
    + apply list_elem_of_In, filter_In. split; [by apply list_elem_of_In|done].
Qed.

(** Two strictly increasing lists with the same elements are equal. *)
Lemma increasing_lists_equal l1 : forall l2,
  StronglySorted lt_string l1 -> StronglySorted lt_string l2 ->
  (forall x, x ∈ l1 <-> x ∈ l2) -> l1 = l2.
Proof.
  induction l1 as [|a l1 IH]; intros l2 Hs1 Hs2 Hsame.
  - destruct l2 as [|b l2]; [done|].
    exfalso. apply (elem_of_nil b), Hsame. left.
  - destruct l2 as [|b l2].
    { exfalso. apply (elem_of_nil a), Hsame. left. }
    apply StronglySorted_inv in Hs1 as [Hs1 Ha].
    apply StronglySorted_inv in Hs2 as [Hs2 Hb].
    rewrite List.Forall_forall in Ha, Hb.
    assert (Hab : a = b).
    { assert (Ha2 : a ∈ b :: l2) by (apply Hsame; left).
      assert (Hb1 : b ∈ a :: l1) by (apply Hsame; left).
      apply elem_of_cons in Ha2 as [?|Ha2]; [done|].
      apply elem_of_cons in Hb1 as [?|Hb1]; [done|].
      apply list_elem_of_In, Hb in Ha2. apply list_elem_of_In, Ha in Hb1.
      pose proof (ltb_trans _ _ _ Ha2 Hb1) as Hbb.
      by rewrite ltb_irrefl in Hbb. }
    subst b. f_equal. apply IH; [done|done|].
    intros x. split; intros Hx.
    + assert (Hx' : x ∈ a :: l2) by (apply Hsame; by right).
      apply elem_of_cons in Hx' as [->|?]; [|done].
      apply list_elem_of_In, Ha in Hx. unfold lt_string in Hx.
      by rewrite ltb_irrefl in Hx.
    + assert (Hx' : x ∈ a :: l1) by (apply Hsame; by right).
      apply elem_of_cons in Hx' as [->|?]; [|done].
      apply list_elem_of_In, Hb in Hx. unfold lt_string in Hx.
      by rewrite ltb_irrefl in Hx.
Qed.

(** X18. The listings do not depend on the order of the catalogue nor on
    repeated records: two catalogues with the same records give the same
    list of categories and the same list of composers, so the order in
    which a directory is listed does not show in them. *)
Theorem listings_ignore_catalogue_order scoresDir (scores scores' : list Score) :
  (forall s, s ∈ scores <-> s ∈ scores') ->
  exists categories composers,
    getAllCategories YAML_parse scoresDir (Some scores)
      = Normal (categories, Some scores)
    /\ getAllCategories YAML_parse scoresDir (Some scores')
      = Normal (categories, Some scores')
    /\ getAllComposers YAML_parse scoresDir (Some scores)
      = Normal (composers, Some scores)
    /\ getAllComposers YAML_parse scoresDir (Some scores')
      = Normal (composers, Some scores').
Proof.
  intros Hsame. unfold getAllCategories, getAllComposers. simpl.
  destruct (collectCategories_spec YAML_parse scores) as [Hnd1 Hin1].
  destruct (collectCategories_spec YAML_parse scores') as [Hnd1' Hin1'].
  destruct (collectComposers_spec scores) as [Hnd2 Hin2].
  destruct (collectComposers_spec scores') as [Hnd2' Hin2'].
  eexists _, _. split; [done|]. split; [|split; [done|]].
  - do 2 f_equal. apply increasing_lists_equal; try by apply sort_sorted.
    intros x. rewrite !sort_elem, Hin1, Hin1'.
    split; intros (s & Hs & Hx); exists s; (split; [by apply Hsame|done]).
  - do 2 f_equal. apply increasing_lists_equal; try by apply sort_sorted.
    intros x. rewrite !sort_elem, Hin2, Hin2'.
    split; intros (Hne & s & Hs & Hx); (split; [done|]); exists s;
      (split; [by apply Hsame|done]).
Qed.

End ListingProperties.

(** ** The further properties at concrete documents and directories *)

Section FurtherParserInstances.
Import JS GenParser Spec Sample.

Lemma notation_is_trimmed_witness :
  parseGenFile odeDecoder odeToJoy = Normal odeToJoyParsed
  /\ trim (notation odeToJoyParsed) = notation odeToJoyParsed.
Proof.
  assert (Hparse : parseGenFile odeDecoder odeToJoy = Normal odeToJoyParsed)
    by (vm_compute; reflexivity).
  split; [exact Hparse|].
  exact (notation_is_trimmed odeDecoder odeToJoy odeToJoyParsed Hparse).
Defined.

Lemma metadata_keys_are_normalised_witness :
  parseGenFile odeDecoder odeToJoy = Normal odeToJoyParsed
  /\ metadata odeToJoyParsed !! lit "timeSignature" = Some (lit "4/4")
  /\ hasHyphenLetter (lit "timeSignature") = false
  /\ camelKey (lit "timeSignature") = lit "timeSignature".
Proof.
  assert (Hparse : parseGenFile odeDecoder odeToJoy = Normal odeToJoyParsed)
    by (vm_compute; reflexivity).
  assert (Hlook : metadata odeToJoyParsed !! lit "timeSignature"
                  = Some (lit "4/4")) by (vm_compute; reflexivity).
  split; [exact Hparse|]. split; [exact Hlook|].
  exact (metadata_keys_are_normalised odeDecoder odeToJoy odeToJoyParsed
           _ _ Hparse Hlook).
Defined.

Lemma text_after_closing_marker_is_dropped_witness :
  atLastTwoMarkers (split newline odeToJoy)
    odeToJoyBefore (lit "---") odeToJoyLines (lit "---") [[]]
  /\ atLastTwoMarkers (split newline odeToJoyPadded)
       odeToJoyBefore (lit ("  ---" ++ CR)) odeToJoyLines (lit ("---" ++ CR))
       [lit "not part of anything"; []]
  /\ parseGenFile odeDecoder odeToJoy = parseGenFile odeDecoder odeToJoyPadded.
Proof.
  assert (Hplain : atLastTwoMarkers (split newline odeToJoy)
            odeToJoyBefore (lit "---") odeToJoyLines (lit "---") [[]])
    by last_two_markers.
  assert (Hpadded : atLastTwoMarkers (split newline odeToJoyPadded)
            odeToJoyBefore (lit ("  ---" ++ CR)) odeToJoyLines
            (lit ("---" ++ CR)) [lit "not part of anything"; []])
    by last_two_markers.
  split; [exact Hplain|]. split; [exact Hpadded|].
  exact (text_after_closing_marker_is_dropped odeDecoder _ _ _ _ _ _ _ _ _ _
           Hplain Hpadded).
Defined.

Lemma scalar_block_gives_empty_metadata_witness :
  atLastTwoMarkers (split newline emptyBlockDoc)
    [lit "E E"] (lit "---") [] (lit "---") [[]]
  /\ nullDecoder (join [newline] []) = Normal JNull
  /\ isScalarOrNull (@JNull Z) = true
  /\ parseGenFile nullDecoder emptyBlockDoc
     = Normal {| notation := trim (join [newline] [lit "E E"]);
                 metadata := ∅ |}.
Proof.
  assert (Hsplit : atLastTwoMarkers (split newline emptyBlockDoc)
            [lit "E E"] (lit "---") [] (lit "---") [[]])
    by last_two_markers.
  assert (Hnull : nullDecoder (join [newline] []) = Normal JNull)
    by (vm_compute; reflexivity).
  split; [exact Hsplit|]. split; [exact Hnull|]. split; [reflexivity|].
  exact (scalar_block_gives_empty_metadata nullDecoder _ _ _ _ _ _ _
           Hsplit Hnull eq_refl).
Defined.

Lemma later_entry_wins_witness :
  Forall (fun p : jsstring * JSValue Z => isScalarOrNull p.2 = true)
         ([(lit "time-signature", JStr (lit "3/4"))]
          ++ (lit "timeSignature", JStr (lit "4/4"))
             :: [(lit "title", @JStr Z (lit "Ode"))])
  /\ camelCase (lit "timeSignature") <> lit "__proto__"
  /\ (forall key' (value' : JSValue Z),
        (key', value') ∈ [(lit "title", JStr (lit "Ode"))] ->
        camelCase key' <> camelCase (lit "timeSignature"))
  /\ exists result : gmap jsstring jsstring,
       normalizeMetadataKeys
         (JObj ([(lit "time-signature", JStr (lit "3/4"))]
                ++ (lit "timeSignature", JStr (lit "4/4"))
                   :: [(lit "title", @JStr Z (lit "Ode"))]))
       = Normal result
       /\ result !! camelCase (lit "timeSignature")
          = Some (scalarText (@JStr Z (lit "4/4"))).
Proof.
  assert (Hscalar :
            Forall (fun p : jsstring * JSValue Z => isScalarOrNull p.2 = true)
              ([(lit "time-signature", JStr (lit "3/4"))]
               ++ (lit "timeSignature", JStr (lit "4/4"))
                  :: [(lit "title", @JStr Z (lit "Ode"))]))
    by (repeat constructor).
  assert (Hproto : camelCase (lit "timeSignature") <> lit "__proto__")
    by (vm_compute; discriminate).
  assert (Hlater : forall key' (value' : JSValue Z),
            (key', value') ∈ [(lit "title", JStr (lit "Ode"))] ->
            camelCase key' <> camelCase (lit "timeSignature")).
  { intros key' value' Hin. apply list_elem_of_singleton in Hin.
    injection Hin as -> _. vm_compute. discriminate. }
  split; [exact Hscalar|]. split; [exact Hproto|]. split; [exact Hlater|].
  exact (later_entry_wins [(lit "time-signature", JStr (lit "3/4"))]
           [(lit "title", JStr (lit "Ode"))] (lit "timeSignature")
           (JStr (lit "4/4")) Hscalar Hproto Hlater).
Defined.

Lemma sequence_block_is_indexed_witness :
  atLastTwoMarkers (split newline listDoc)
    [lit "E E"] (lit "---") [lit "- la"; lit "- 7"] (lit "---") []
  /\ listDecoder (join [newline] [lit "- la"; lit "- 7"])
     = Normal (JArr listItems)
  /\ Forall (fun item => isScalarOrNull item = true) listItems
  /\ exists result,
       parseGenFile listDecoder listDoc = Normal result
       /\ notation result = trim (join [newline] [lit "E E"])
       /\ (forall i, metadata result !! indexKey i
                     = scalarText <$> listItems !! i)
       /\ (forall k, is_Some (metadata result !! k) ->
             exists i, k = indexKey i /\ (i < length listItems)%nat).
Proof.
  assert (Hsplit : atLastTwoMarkers (split newline listDoc)
            [lit "E E"] (lit "---") [lit "- la"; lit "- 7"] (lit "---") [])
    by last_two_markers.
  assert (Hlist : listDecoder (join [newline] [lit "- la"; lit "- 7"])
                  = Normal (JArr listItems)) by (vm_compute; reflexivity).
  assert (Hscalar : Forall (fun item : JSValue Z => isScalarOrNull item = true)
                      listItems) by (repeat constructor).
  split; [exact Hsplit|]. split; [exact Hlist|]. split; [exact Hscalar|].
  exact (sequence_block_is_indexed listDecoder _ _ _ _ _ _ _
           Hsplit Hlist Hscalar).
Defined.

Lemma unconvertible_value_empties_metadata_witness :
  atLastTwoMarkers (split newline shadowDoc)
    [lit "E E"] (lit "---")
    [lit "title: T"; lit "extra:"; lit "  toString: x"] (lit "---") []
  /\ (lit "extra", JObj [(lit "toString", JStr (lit "x"))])
     ∈ decodedPairs
         (shadowDecoder
            (join [newline]
               [lit "title: T"; lit "extra:"; lit "  toString: x"]))
  /\ (lit "toString", @JStr Z (lit "x")) ∈ [(lit "toString", JStr (lit "x"))]
  /\ parseGenFile shadowDecoder shadowDoc
     = Normal {| notation := trim (join [newline] [lit "E E"]);
                 metadata := ∅ |}.
Proof.
  assert (Hsplit : atLastTwoMarkers (split newline shadowDoc)
            [lit "E E"] (lit "---")
            [lit "title: T"; lit "extra:"; lit "  toString: x"] (lit "---") [])
    by last_two_markers.
  assert (Hentry : (lit "extra", JObj [(lit "toString", JStr (lit "x"))])
            ∈ decodedPairs
                (shadowDecoder
                   (join [newline]
                      [lit "title: T"; lit "extra:"; lit "  toString: x"]))).
  { change (decodedPairs _) with shadowPairs. unfold shadowPairs.
    apply elem_of_cons. right. apply elem_of_cons. by left. }
  assert (Hshadow : (lit "toString", @JStr Z (lit "x"))
                    ∈ [(lit "toString", JStr (lit "x"))])
    by (apply elem_of_cons; by left).
  split; [exact Hsplit|]. split; [exact Hentry|]. split; [exact Hshadow|].
  exact (unconvertible_value_empties_metadata shadowDecoder _ _ _ _ _ _ _ _ _
           Hsplit Hentry Hshadow).
Defined.

End FurtherParserInstances.

Section FurtherCatalogueInstances.
Import JS Spec ScoreLoader Sample.

Lemma sample_loaded :
  loadAllScores odeDecoder sampleDir None
  = Normal (sampleScores, Some sampleScores).
Proof. vm_compute. reflexivity. Defined.

Lemma scanDirectory_lists_gen_files_witness :
  forallb validEntry sampleDir = true
  /\ exists scores,
       scanDirectory odeDecoder sampleDir [] = Normal scores
       /\ Forall2 (recordOf odeDecoder) scores (genFiles sampleDir)
       /\ length scores = length (genFiles sampleDir).
Proof.
  assert (Hvalid : forallb validEntry sampleDir = true)
    by (vm_compute; reflexivity).
  split; [exact Hvalid|].
  exact (scanDirectory_lists_gen_files odeDecoder sampleDir Hvalid).
Defined.

Lemma scanned_paths_are_unique_witness :
  wellFormedDir sampleDir = true
  /\ scanDirectory odeDecoder sampleDir [] = Normal sampleScores
  /\ NoDup (path <$> sampleScores)
  /\ forall i j a b,
       sampleScores !! i = Some a -> sampleScores !! j = Some b ->
       path a = path b -> i = j.
Proof.
  assert (Hwf : wellFormedDir sampleDir = true) by (vm_compute; reflexivity).
  assert (Hscan : scanDirectory odeDecoder sampleDir [] = Normal sampleScores)
    by (vm_compute; reflexivity).
  split; [exact Hwf|]. split; [exact Hscan|].
  exact (scanned_paths_are_unique odeDecoder sampleDir sampleScores Hwf Hscan).
Defined.

Lemma getScoreByPath_first_match_witness :
  loadAllScores odeDecoder sampleDir None
  = Normal (sampleScores, Some sampleScores)
  /\ exists found,
       getScoreByPath odeDecoder sampleDir (lit "classical/ode.gen") None
         = Normal (found, Some sampleScores)
       /\ (found = None <->
            forall s, s ∈ sampleScores -> path s <> lit "classical/ode.gen")
       /\ (forall s, found = Some s ->
             path s = lit "classical/ode.gen"
             /\ exists i, sampleScores !! i = Some s
                  /\ forall j s', (j < i)%nat -> sampleScores !! j = Some s' ->
                       path s' <> lit "classical/ode.gen").
Proof.
  split; [exact sample_loaded|].
  exact (getScoreByPath_first_match odeDecoder sampleDir
           (lit "classical/ode.gen") None sampleScores (Some sampleScores)
           sample_loaded).
Defined.

Lemma getScoreByPath_own_path_witness :
  wellFormedDir sampleDir = true
  /\ loadAllScores odeDecoder sampleDir None
     = Normal (sampleScores, Some sampleScores)
  /\ forall s, s ∈ sampleScores ->
       getScoreByPath odeDecoder sampleDir (path s) None
         = Normal (Some s, Some sampleScores)
       /\ getScoreByPath odeDecoder sampleDir (path s) (Some sampleScores)
          = Normal (Some s, Some sampleScores).
Proof.
  assert (Hwf : wellFormedDir sampleDir = true) by (vm_compute; reflexivity).
  split; [exact Hwf|]. split; [exact sample_loaded|].
  exact (getScoreByPath_own_path odeDecoder sampleDir sampleScores
           (Some sampleScores) Hwf sample_loaded).
Defined.

Lemma loaded_cache_is_final_witness :
  loadAllScores odeDecoder sampleDir None
  = Normal (sampleScores, Some sampleScores)
  /\ Some sampleScores = Some sampleScores
  /\ loadAllScores odeDecoder grownDir (Some sampleScores)
     = Normal (sampleScores, Some sampleScores)
  /\ (forall filter,
        filterScores odeDecoder asciiLower grownDir filter (Some sampleScores)
        = filterScores odeDecoder asciiLower sampleDir filter None)
  /\ (forall wanted,
        getScoreByPath odeDecoder grownDir wanted (Some sampleScores)
        = getScoreByPath odeDecoder sampleDir wanted None)
  /\ getAllCategories odeDecoder grownDir (Some sampleScores)
     = getAllCategories odeDecoder sampleDir None
  /\ getAllComposers odeDecoder grownDir (Some sampleScores)
     = getAllComposers odeDecoder sampleDir None
  /\ (forall query,
        searchByTitle odeDecoder asciiLower grownDir query (Some sampleScores)
        = searchByTitle odeDecoder asciiLower sampleDir query None)
  /\ (forall query,
        searchByComposer odeDecoder asciiLower grownDir query
          (Some sampleScores)
        = searchByComposer odeDecoder asciiLower sampleDir query None).
Proof.
  split; [exact sample_loaded|].
  exact (loaded_cache_is_final odeDecoder asciiLower sampleDir grownDir None
           sampleScores (Some sampleScores) sample_loaded).
Defined.

Lemma search_by_containment_witness :
  loadAllScores odeDecoder sampleDir None
  = Normal (sampleScores, Some sampleScores)
  /\ exists byTitle byComposer : Score -> bool,
       (forall s, byTitle s = true
          <-> exists t, title s = Some t
                /\ containsCI asciiLower t (lit "JOY"))
       /\ (forall s, byComposer s = true
          <-> exists c, composer s = Some c
                /\ containsCI asciiLower c (lit "JOY"))
       /\ searchByTitle odeDecoder asciiLower sampleDir (lit "JOY") None
          = Normal (List.filter byTitle sampleScores, Some sampleScores)
       /\ searchByComposer odeDecoder asciiLower sampleDir (lit "JOY") None
          = Normal (List.filter byComposer sampleScores, Some sampleScores).
Proof.
  split; [exact sample_loaded|].
  exact (search_by_containment odeDecoder asciiLower sampleDir (lit "JOY")
           None sampleScores (Some sampleScores) sample_loaded).
Defined.

Lemma narrower_filter_returns_subsequence_witness :
  narrows beetFilter beetClassicalFilter
  /\ loadAllScores odeDecoder sampleDir None
     = Normal (sampleScores, Some sampleScores)
  /\ exists few many,
       filterScores odeDecoder asciiLower sampleDir
         (Some beetClassicalFilter) None = Normal (few, Some sampleScores)
       /\ filterScores odeDecoder asciiLower sampleDir (Some beetFilter) None
          = Normal (many, Some sampleScores)
       /\ sublist few many /\ sublist many sampleScores.
Proof.
  assert (Hnarrow : narrows beetFilter beetClassicalFilter).
  { unfold narrows, keepsCriterion. simpl.
    repeat split; intros Hset; (reflexivity || discriminate Hset). }
  split; [exact Hnarrow|]. split; [exact sample_loaded|].
  exact (narrower_filter_returns_subsequence odeDecoder asciiLower sampleDir
           beetFilter beetClassicalFilter None sampleScores
           (Some sampleScores) Hnarrow sample_loaded).
Defined.

Lemma listed_values_select_records_witness :
  loadAllScores odeDecoder sampleDir None
  = Normal (sampleScores, Some sampleScores)
  /\ exists categories composers,
       getAllCategories odeDecoder sampleDir None
         = Normal (categories, Some sampleScores)
       /\ getAllComposers odeDecoder sampleDir None
         = Normal (composers, Some sampleScores)
       /\ (forall x, x ∈ categories ->
             exists kept s,
               filterScores odeDecoder asciiLower sampleDir
                 (Some (categoryOnly x)) None = Normal (kept, Some sampleScores)
               /\ s ∈ kept)
       /\ (forall x, x ∈ composers ->
             exists kept found s,
               filterScores odeDecoder asciiLower sampleDir
                 (Some (composerOnly x)) None = Normal (kept, Some sampleScores)
               /\ searchByComposer odeDecoder asciiLower sampleDir x None
                  = Normal (found, Some sampleScores)
               /\ s ∈ kept /\ s ∈ found /\ composer s = Some x).
Proof.
  split; [exact sample_loaded|].
  exact (listed_values_select_records odeDecoder asciiLower sampleDir None
           sampleScores (Some sampleScores) sample_loaded).
Defined.

Lemma listings_ignore_catalogue_order_witness :
  (forall s, s ∈ sampleScores <-> s ∈ rev sampleScores)
  /\ exists categories composers,
       getAllCategories odeDecoder sampleDir (Some sampleScores)
         = Normal (categories, Some sampleScores)
       /\ getAllCategories odeDecoder sampleDir (Some (rev sampleScores))
         = Normal (categories, Some (rev sampleScores))
       /\ getAllComposers odeDecoder sampleDir (Some sampleScores)
         = Normal (composers, Some sampleScores)
       /\ getAllComposers odeDecoder sampleDir (Some (rev sampleScores))
         = Normal (composers, Some (rev sampleScores)).
Proof.
  assert (Hsame : forall s, s ∈ sampleScores <-> s ∈ rev sampleScores).
  { intros s. symmetry. apply elem_of_rev. }
  split; [exact Hsame|].
  exact (listings_ignore_catalogue_order odeDecoder sampleDir sampleScores
           (rev sampleScores) Hsame).
Defined.

End FurtherCatalogueInstances.

(** ** Which files are catalogued *)

Section CataloguedFiles.
Import JS Spec ScoreLoader.

Lemma genFilesOfEntry_located entry :
  forall f, f ∈ genFilesOfEntry entry ->
    located [entry] (inDirs f) (fileName f) (fileText f)
    /\ endsWith (fileName f) (lit ".gen") = true.
Proof.
  induction entry as [name text|name entries IH] using Dirent_tree_ind;
    simpl; intros f.
  - destruct (endsWith name (lit ".gen")) eqn:E; [|by intros Hin%elem_of_nil].
    intros ->%list_elem_of_singleton. simpl. split; [|done].
    constructor. left.
  - intros Hin%list_elem_of_In%in_map_iff.
    destruct Hin as (f' & <- & Hin%in_flat_map).
    destruct Hin as (e & He & Hf').
    rewrite List.Forall_forall in IH.
    destruct (IH e He f') as [Hloc Hgen]; [by apply list_elem_of_In|].
    simpl. split; [|done].
    apply (located_below _ name entries); [left|].
    apply (located_single entries e); [by apply list_elem_of_In|done].
Qed.

Lemma located_genFiles entries dirs name text :
  located entries dirs name text ->
  endsWith name (lit ".gen") = true ->
  {| inDirs := dirs; fileName := name; fileText := text |} ∈ genFiles entries.
Proof.
  intros Hloc Hgen.
  induction Hloc as [entries name text Hin|entries dir sub dirs name text Hin Hsub IH].
  - apply list_elem_of_In, in_flat_map. exists (FileEntry name text).
    split; [by apply list_elem_of_In|]. simpl. rewrite Hgen. by left.
  - apply list_elem_of_In, in_flat_map. exists (DirEntry dir sub).
    split; [by apply list_elem_of_In|]. simpl. apply in_map_iff.
    exists {| inDirs := dirs; fileName := name; fileText := text |}.
    split; [done|]. apply list_elem_of_In. by apply IH.
Qed.

Lemma Forall2_both_ways {A B} (R : A -> B -> Prop) l k :
  Forall2 R l k ->
  (forall a, a ∈ l -> exists b, b ∈ k /\ R a b)
  /\ (forall b, b ∈ k -> exists a, a ∈ l /\ R a b).
Proof.
  induction 1 as [|a b l k Hab Hrest [IHl IHk]].
  - split; intros x Hx%elem_of_nil; done.
  - split.
    + intros x [->|Hx]%elem_of_cons.
      * exists b. split; [left|done].
      * destruct (IHl x Hx) as (y & Hy & Hxy). exists y. split; [by right|done].
    + intros y [->|Hy]%elem_of_cons.
      * exists a. split; [left|done].
      * destruct (IHk y Hy) as (x & Hx & Hxy). exists x. split; [by right|done].
Qed.

End CataloguedFiles.

Section CataloguedFilesTheorem.
Import JS Spec ScoreLoader.
Context {Number : Type} `{NumberOps Number}.
Variable YAML_parse : jsstring -> Completion (JSValue Number).

(** X19. A file is catalogued exactly when its name ends in [.gen],
    wherever it sits in the tree: the catalogue has a record with a given
    path and content if and only if the tree has a file of that content
    whose name ends in [.gen] and whose directories and name, joined with
    slashes, are that path.  Other files, and directories of any name,
    give no record. *)
Theorem catalogued_iff_gen_file entries scores :
  forallb validEntry entries = true ->
  scanDirectory YAML_parse entries [] = Normal scores ->
  forall p text,
    (exists s, s ∈ scores /\ path s = p /\ content s = text)
    <-> (exists dirs name,
           located entries dirs name text
           /\ endsWith name (lit ".gen") = true
           /\ p = join [slash] (dirs ++ [name])).
Proof.
  intros Hvalid Hscan p text.
  destruct (scanDirectory_lists_gen_files_aux YAML_parse entries Hvalid)
    as (scores' & Hscan' & Hrel).
  rewrite Hscan in Hscan'. injection Hscan' as <-.
  apply Forall2_both_ways in Hrel as [Hforth Hback]. split.
  - intros (s & Hs & <- & <-).
    destruct (Hforth s Hs) as (f & Hf & Hpath & _ & Hcontent & _).
    apply list_elem_of_In, in_flat_map in Hf as (e & He & Hf).
    apply list_elem_of_In, genFilesOfEntry_located in Hf as [Hloc Hgen].
    exists (inDirs f), (fileName f). rewrite Hcontent.
    split; [|done].
    apply (located_single entries e); [by apply list_elem_of_In|done].
  - intros (dirs & name & Hloc & Hgen & ->).
    destruct (Hback _ (located_genFiles entries dirs name text Hloc Hgen))
      as (s & Hs & Hpath & _ & Hcontent & _).
    exists s. done.
Qed.

End CataloguedFilesTheorem.

Section CataloguedFilesInstance.
Import JS Spec ScoreLoader Sample.

Lemma catalogued_iff_gen_file_witness :
  forallb validEntry sampleDir = true
  /\ scanDirectory odeDecoder sampleDir [] = Normal sampleScores
  /\ forall p text,
       (exists s, s ∈ sampleScores /\ path s = p /\ content s = text)
       <-> (exists dirs name,
              located sampleDir dirs name text
              /\ endsWith name (lit ".gen") = true
              /\ p = join [slash] (dirs ++ [name])).
Proof.
  assert (Hvalid : forallb validEntry sampleDir = true)
    by (vm_compute; reflexivity).
  assert (Hscan : scanDirectory odeDecoder sampleDir [] = Normal sampleScores)
    by (vm_compute; reflexivity).
  split; [exact Hvalid|]. split; [exact Hscan|].
  exact (catalogued_iff_gen_file odeDecoder sampleDir sampleScores
           Hvalid Hscan).
Defined.

End CataloguedFilesInstance.
